(** * imgs_to_video.py: image frames to chunked clean/annotated clips

    A shallow embedding of [src/imgs_to_video.py] and the properties of its
    three functions: [load_csv_data] (annotation loader),
    [get_next_video_index] (output indexer) and [split_images_to_videos]
    (chunker/encoder).

    Conventions of the embedding.
    - File names, CSV fields and column names are ASCII texts ([list ascii]);
      Python's [\d] and [int] are modelled on ASCII digits.
    - Python integers are unbounded: counts, the chunk size and sequence
      indices are [nat], values read from the annotation file are [Z].
    - A directory is the list of names [os.listdir] returns for it. The
      output prefix is a base name inside an output folder, and the names built
      from the prefix are names in that folder. Listing the input folder and
      creating or listing the output folder can raise (as [os.makedirs] does
      for a prefix with no directory part).
    - The OpenCV calls, [natsorted] and the outcome of writing a file are
      parameters of the encoder (Section variables): [imread], [resize] and
      [circle] give what a call returns, and [raises] tells which calls to
      OpenCV and to the operating system raise instead of returning.
    - [math.ceil(m / c)] goes through a binary64 float, as in Python. *)

From Stdlib Require Import ZArith Ascii String List Lia DecimalNat.
From stdpp Require Import base option list sorting gmap strings.

Set Default Proof Using "Type".

(** ** Texts *)

Module Text.

Definition text := list ascii.

Definition txt (s : string) : text := list_ascii_of_string s.

(** [s.startswith(p)], keeping what follows the prefix. *)
Fixpoint strip_prefix (p s : text) : option text :=
  match p, s with
  | [], _ => Some s
  | c :: p', d :: s' => if Ascii.eqb c d then strip_prefix p' s' else None
  | _ :: _, [] => None
  end.

Definition startswith (s p : text) : bool :=
  match strip_prefix p s with Some _ => true | None => false end.

Definition endswith (s p : text) : bool := startswith (rev s) (rev p).

(** [needle in s] *)
Fixpoint contains (needle s : text) : bool :=
  startswith s needle ||
  match s with
  | [] => false
  | _ :: s' => contains needle s'
  end.

(** [s.lower()] on ASCII letters. *)
Definition lower_char (c : ascii) : ascii :=
  let n := nat_of_ascii c in
  if (65 <=? n)%nat && (n <=? 90)%nat then ascii_of_nat (n + 32) else c.

Definition lower (s : text) : text := map lower_char s.

(** [\d] *)
Definition is_digit (c : ascii) : bool :=
  let n := nat_of_ascii c in (48 <=? n)%nat && (n <=? 57)%nat.

Definition digit_value (c : ascii) : nat := nat_of_ascii c - 48.

(** [int(ds)] for a run of digits [ds]. *)
Definition int_digits (ds : text) : nat :=
  fold_left (fun acc c => 10 * acc + digit_value c) ds 0.

Fixpoint uint_chars (d : Decimal.uint) : text :=
  match d with
  | Decimal.Nil => []
  | Decimal.D0 d => "0"%char :: uint_chars d
  | Decimal.D1 d => "1"%char :: uint_chars d
  | Decimal.D2 d => "2"%char :: uint_chars d
  | Decimal.D3 d => "3"%char :: uint_chars d
  | Decimal.D4 d => "4"%char :: uint_chars d
  | Decimal.D5 d => "5"%char :: uint_chars d
  | Decimal.D6 d => "6"%char :: uint_chars d
  | Decimal.D7 d => "7"%char :: uint_chars d
  | Decimal.D8 d => "8"%char :: uint_chars d
  | Decimal.D9 d => "9"%char :: uint_chars d
  end.

(** [str(n)], the decimal numeral an f-string interpolates. *)
Definition str (n : nat) : text := uint_chars (Nat.to_uint n).

(** The longest run of digits at the head of [s], and the rest. *)
Fixpoint span_digits (s : text) : text * text :=
  match s with
  | [] => ([], [])
  | c :: s' =>
      if is_digit c
      then let '(ds, r) := span_digits s' in (c :: ds, r)
      else ([], s)
  end.

Definition all_digits (ds : text) : Prop := Forall (fun c => is_digit c = true) ds.

(** [r] does not go on with a digit. *)
Definition no_digit_head (r : text) : Prop :=
  match r with [] => True | c :: _ => is_digit c = false end.

(** [s] has no digit; [a] does not end with a digit. *)
Definition no_digits (s : text) : Prop := Forall (fun c => is_digit c = false) s.

Definition no_digit_last (a : text) : Prop :=
  match last a with Some c => is_digit c = false | None => True end.

(** [re.findall(r'\d+', s)]: the maximal runs of digits, left to right.
    [run] holds the digits of the run being read, most recent first. *)
Fixpoint findall_from (run : text) (s : text) : list text :=
  match s with
  | [] => match run with [] => [] | _ => [rev run] end
  | c :: s' =>
      if is_digit c then findall_from (c :: run) s'
      else match run with
           | [] => findall_from [] s'
           | _ => rev run :: findall_from [] s'
           end
  end.

Definition findall_digits (s : text) : list text := findall_from [] s.

End Text.

Export Text.

(** ** Output indexer *)

Module Indexer.

Definition clean_suffix : text := txt "_clean.mp4".

(** The pattern [prefix_(\d+)_clean\.mp4] tried at the head of [s];
    the result is group 1. [\d+] is greedy, and what follows it in the pattern
    is not a digit, so only the longest run can match. *)
Definition match_here (prefix s : text) : option text :=
  r1 ← strip_prefix prefix s;
  r2 ← strip_prefix (txt "_") r1;
  let '(ds, r3) := span_digits r2 in
  match ds with
  | [] => None
  | _ => _ ← strip_prefix clean_suffix r3; Some ds
  end.

(** [re.search]: the match at the leftmost position where there is one. *)
Fixpoint re_search (prefix s : text) : option text :=
  match match_here prefix s with
  | Some ds => Some ds
  | None =>
      match s with
      | [] => None
      | _ :: s' => re_search prefix s'
      end
  end.

(** [folder] is [None] when the directory does not exist yet: it is created,
    and then lists nothing. *)
Definition listdir_makedirs (folder : option (list text)) : list text :=
  default [] folder.

Definition get_next_video_index (prefix : text) (folder : option (list text)) : nat :=
  let existing :=
    List.filter (fun f => startswith f prefix && contains clean_suffix f)
                (listdir_makedirs folder) in
  let indices := omap (fun filename => int_digits <$> re_search prefix filename) existing in
  max_list indices + 1.

Definition clean_name (prefix : text) (idx : nat) : text :=
  prefix ++ txt "_" ++ str idx ++ txt "_clean.mp4".
Definition annotated_name (prefix : text) (idx : nat) : text :=
  prefix ++ txt "_" ++ str idx ++ txt "_annotated.mp4".
Definition csv_name (prefix : text) (idx : nat) : text :=
  prefix ++ txt "_" ++ str idx ++ txt ".csv".

(** What one name of the listing adds to [indices]. *)
Definition file_index (prefix f : text) : option nat :=
  if startswith f prefix && contains clean_suffix f
  then int_digits <$> re_search prefix f
  else None.

(** The naming pattern in words: [f] is exactly [<prefix>_<N>_clean.mp4],
    where N is written with the digits [ds]. *)
Definition exact_clean_name (prefix f : text) (n : nat) : Prop :=
  exists ds, ds <> [] /\ all_digits ds /\ n = int_digits ds /\
             f = prefix ++ txt "_" ++ ds ++ clean_suffix.

(** [<prefix>_<ds>_clean.mp4] occurs in [f] after the first [length a]
    characters. *)
Definition occurs_at (prefix f a ds : text) : Prop :=
  ds <> [] /\ all_digits ds /\
  exists b, f = a ++ prefix ++ txt "_" ++ ds ++ clean_suffix ++ b.

(** [f] starts with the prefix, and the leftmost occurrence of the pattern in
    it carries the number [n]. *)
Definition counted (prefix f : text) (n : nat) : Prop :=
  startswith f prefix = true /\
  exists a ds, occurs_at prefix f a ds /\ n = int_digits ds /\
    forall a' ds', occurs_at prefix f a' ds' -> length a <= length a'.

End Indexer.

Export Indexer.

(** ** Annotation loader *)

Module Loader.

Inductive py_exception :=
  | ValueError | KeyError | TypeError | RuntimeError | ZeroDivisionError
  | OverflowError | OSError | Cv2Error.

(** Characters [int] strips from both ends of its argument: tab, line feed,
    vertical tab, form feed, carriage return and space. *)
Definition is_space (c : ascii) : bool :=
  let n := nat_of_ascii c in
  ((9 <=? n)%nat && (n <=? 13)%nat) || (n =? 32)%nat.

Fixpoint lstrip (s : text) : text :=
  match s with
  | c :: s' => if is_space c then lstrip s' else s
  | [] => []
  end.

Definition strip (s : text) : text := rev (lstrip (rev (lstrip s))).

(** Digits with single underscores between them; [seen] tells whether the
    character just read was a digit. *)
Fixpoint parse_digits (acc : nat) (seen : bool) (s : text) : option nat :=
  match s with
  | [] => if seen then Some acc else None
  | c :: s' =>
      if is_digit c then parse_digits (10 * acc + digit_value c) true s'
      else if Ascii.eqb c "_" && seen then parse_digits acc false s'
      else None
  end.

(** [int(s)] on a string: [None] stands for ValueError. *)
Definition py_int (s : text) : option Z :=
  match strip s with
  | "-"%char :: r => (fun n => - Z.of_nat n)%Z <$> parse_digits 0 false r
  | "+"%char :: r => Z.of_nat <$> parse_digits 0 false r
  | r => Z.of_nat <$> parse_digits 0 false r
  end.

(** A row as [csv.DictReader] yields it: a dict from column name to field.
    A field is [Some s] for a string and [None] for Python's [None], which
    DictReader stores (its [restval]) for the columns a short record lacks. *)
Abbreviation row_dict := (gmap text (option text)).

Fixpoint zip_fields (fieldnames record : list text) (d : row_dict) : row_dict :=
  match fieldnames, record with
  | k :: ks, v :: vs => zip_fields ks vs (<[k := Some v]> d)
  | ks, [] => foldl (fun d k => <[k := None]> d) d ks
  | [], _ :: _ => d
  end.

Definition is_blank (record : list text) : bool :=
  match record with [] => true | _ => false end.

(** The records of the file, as the csv reader splits them; the first one
    gives the field names, blank records after it are passed over. *)
Definition dict_reader (records : list (list text)) : list row_dict :=
  match records with
  | [] => []
  | fieldnames :: rest =>
      map (fun record => zip_fields fieldnames record ∅)
          (List.filter (fun record => negb (is_blank record)) rest)
  end.

Record Point := { name : option text; x : Z; y : Z }.

Abbreviation points_table := (gmap Z (list Point)).

(** [int(row[key])] *)
Definition int_field (row : row_dict) (key : text) : py_exception + Z :=
  match row !! key with
  | None => inl KeyError
  | Some None => inl TypeError
  | Some (Some s) =>
      match py_int s with
      | Some z => inr z
      | None => inl ValueError
      end
  end.

(** [row.get('Object Name', 'Unknown')] *)
Definition get_name (row : row_dict) : option text :=
  match row !! txt "Object Name" with
  | None => Some (txt "Unknown")
  | Some v => v
  end.

(** The body of the inner [try]. *)
Definition parse_row (row : row_dict) : py_exception + (Z * Point) :=
  match int_field row (txt "Frame") with
  | inl e => inl e
  | inr frame =>
      match int_field row (txt "X") with
      | inl e => inl e
      | inr vx =>
          match int_field row (txt "Y") with
          | inl e => inl e
          | inr vy => inr (frame, {| name := get_name row; x := vx; y := vy |})
          end
      end
  end.

(** [points_map[frame].append(p)] on a [defaultdict(list)] *)
Definition append_point (points_map : points_table) (frame : Z) (p : Point) : points_table :=
  <[frame := default [] (points_map !! frame) ++ [p]]> points_map.

(** The [for row in reader] loop. The inner handler catches ValueError and
    KeyError and goes on with the next row; any other exception leaves the loop
    for the outer handler, which prints it: what was loaded so far is
    returned. *)
Fixpoint load_rows (rows : list row_dict) (points_map : points_table) : points_table :=
  match rows with
  | [] => points_map
  | row :: rest =>
      match parse_row row with
      | inr (frame, p) => load_rows rest (append_point points_map frame p)
      | inl ValueError | inl KeyError => load_rows rest points_map
      | inl _ => points_map
      end
  end.

Inductive csv_source :=
  | CsvMissing                                  (* os.path.exists is false *)
  | CsvUnreadable                               (* open raises *)
  | CsvRecords (records : list (list text)).

Definition load_csv_data (csv : csv_source) : points_table :=
  match csv with
  | CsvMissing => ∅
  | CsvUnreadable => ∅
  | CsvRecords records => load_rows (dict_reader records) ∅
  end.

(** [points_map.get(frame, [])] *)
Definition get_points (points_map : points_table) (frame : Z) : list Point :=
  default [] (points_map !! frame).

End Loader.

Export Loader.

(** ** Chunker / encoder *)

Module Encoder.

(** A row of a per-chunk annotation file, under the columns
    [Frame], [Object Name], [X], [Y]. *)
Record CsvRow := { Frame : nat; ObjectName : option text; X : Z; Y : Z }.

Definition fieldnames : list text :=
  [txt "Frame"; txt "Object Name"; txt "X"; txt "Y"].

(** What the run does about a chunk's annotation file: nothing, or
    [writeheader] and [writerows] with the header and the rows given;
    [completed] tells whether the write went through ("Saved CSV") or raised
    and was reported ("Error saving CSV"). *)
Inductive csv_outcome :=
  | CsvSkipped
  | CsvWrite (header : list text) (rows : list CsvRow) (completed : bool).

(** [img.lower().endswith(('.jpg', '.jpeg', '.png'))] *)
Definition is_image_name (img : text) : bool :=
  let l := lower img in
  endswith l (txt ".jpg") || endswith l (txt ".jpeg") || endswith l (txt ".png").

(** The exact ceiling of [m / c] for [c > 0], in which the number of chunks
    is stated. The source computes [math.ceil(m / c)] through a float, see
    [math_ceil_quotient] below; the two agree when [m < 2^53] and
    [c < 2^1075]. *)
Definition math_ceil_div (m c : nat) : nat :=
  m / c + (if (m mod c =? 0)%nat then 0 else 1).

(** [a / b] rounded to the nearest integer, a tie going to the even one
    ([0 <= a], [0 < b]). *)
Definition round_half_even (a b : Z) : Z :=
  let k := (a / b)%Z in
  let r := (a mod b)%Z in
  if (2 * r <? b)%Z then k
  else if (b <? 2 * r)%Z then (k + 1)%Z
  else if Z.even k then k else (k + 1)%Z.

(** For [0 < c <= m], the [e] with [2^e <= m / c < 2^(e+1)]. *)
Definition quotient_exponent (m c : Z) : Z :=
  let e0 := (Z.log2 m - Z.log2 c)%Z in
  if (c * 2 ^ e0 <=? m)%Z then e0 else (e0 - 1)%Z.

(** [math.ceil(m / c)] on integers [0 <= m] and [0 < c], as Python computes
    it: [m / c] is the binary64 float nearest to the quotient (ties to even),
    OverflowError when that is beyond the largest float, and [math.ceil] is the
    least integer not below the float. [None] stands for OverflowError.
    - Below 1, the float is 0.0 when the quotient is at most 2^-1075, half the
      least positive float, and lies in (0, 1] otherwise.
    - From 1 on, with [2^e <= m / c < 2^(e+1)], floats are the multiples of
      [2^(e-52)]: the quotient is rounded to a multiple [N] of it. *)
Definition ceil_of_quotient (m c : Z) : option Z :=
  if (m =? 0)%Z then Some 0%Z
  else if (m <? c)%Z then
    (if (m * 2 ^ 1075 <=? c)%Z then Some 0%Z else Some 1%Z)
  else
    let e := quotient_exponent m c in
    if (e <=? 52)%Z then
      let s := (52 - e)%Z in
      let N := round_half_even (m * 2 ^ s) c in
      Some ((N + 2 ^ s - 1) / 2 ^ s)%Z
    else
      let t := (e - 52)%Z in
      let N := round_half_even m (c * 2 ^ t) in
      if (2 ^ 1024 <=? N * 2 ^ t)%Z then None else Some (N * 2 ^ t)%Z.

Definition math_ceil_quotient (m c : nat) : option nat :=
  Z.to_nat <$> ceil_of_quotient (Z.of_nat m) (Z.of_nat c).

(** [l[start:stop]] for non-negative bounds. *)
Definition slice {A} (l : list A) (start stop : nat) : list A :=
  take (stop - start) (drop start l).

Fixpoint enumerate_from {A} (i : nat) (l : list A) : list (nat * A) :=
  match l with
  | [] => []
  | a :: l' => (i, a) :: enumerate_from (S i) l'
  end.

Definition enumerate {A} (l : list A) : list (nat * A) := enumerate_from 0 l.

(** [nums = re.findall(r'\d+', img_name)], then [int(nums[-1])] if [nums]. *)
Definition global_frame_num (img_name : text) : option nat :=
  int_digits <$> last (findall_digits img_name).

Definition make_row (local_frame_index : nat) (p : Point) : CsvRow :=
  {| Frame := local_frame_index; ObjectName := name p; X := x p; Y := y p |}.

Section Run.

(** Decoded frames and the OpenCV calls on them. [imread] is given the name
    of an image of the input folder. *)
Context {Image : Type}.
Variable imread : text -> option Image.
Variable shape : Image -> nat * nat.
Variable resize : Image -> nat * nat -> Image.
Variable circle : Image -> Z -> Z -> Image.
Variable natsorted : list text -> list text.
(** Whether opening and writing the annotation file of that name goes
    through. *)
Variable csv_write_ok : text -> bool.

(** The calls of the run that lie outside every handler: an exception raised
    by one of them ends the run. *)
Inductive external_call :=
  | ListInputFolder                                    (* os.listdir(input_folder) *)
  | PrepareOutputFolder                                (* os.makedirs, os.listdir of get_next_video_index *)
  | OpenWriter (path : text) (frame_size : nat * nat)  (* cv2.VideoWriter(path, ...) *)
  | Imread (img_name : text)                           (* cv2.imread *)
  | Resize (frame : Image) (frame_size : nat * nat)    (* cv2.resize *)
  | Write (path : text) (frame : Image)                (* out.write(frame) *)
  | Circle (frame : Image) (cx cy : Z)                 (* cv2.circle *)
  | Release (path : text).                             (* out.release() *)

(** The exception a call raises, if it raises. When it does not, [imread],
    [resize] and [circle] above give what it returns. *)
Variable raises : external_call -> option py_exception.

Record chunk_state := {
  out_clean : list Image;
  out_annotated : list Image;
  chunk_csv_data : list CsvRow
}.

Definition draw_points (frame : Image) (points : list Point) : Image :=
  foldl (fun fr p => circle fr (x p) (y p)) frame points.

(** One iteration of the loop over [enumerate(video_images)], when none of
    its calls raises: the calls that can raise are listed by [frame_calls]
    below, and a call that raises ends the run. *)
Definition process_frame (points_map : points_table) (frame_size : nat * nat)
    (st : chunk_state) (it : nat * text) : chunk_state :=
  let '(local_frame_index, img_name) := it in
  match imread img_name with
  | None => st
  | Some frame =>
      let frame := resize frame frame_size in
      let clean := out_clean st ++ [frame] in
      match global_frame_num img_name with
      | Some g =>
          let points := get_points points_map (Z.of_nat g) in
          {| out_clean := clean;
             out_annotated := out_annotated st ++ [draw_points frame points];
             chunk_csv_data := chunk_csv_data st ++ map (make_row local_frame_index) points |}
      | None =>
          {| out_clean := clean;
             out_annotated := out_annotated st ++ [frame];
             chunk_csv_data := chunk_csv_data st |}
      end
  end.

(** What one image of a chunk adds to each of the three outputs. *)
Definition clean_frame (frame_size : nat * nat) (img_name : text) : option Image :=
  (fun frame => resize frame frame_size) <$> imread img_name.

Definition image_points (points_map : points_table) (img_name : text) : list Point :=
  match global_frame_num img_name with
  | Some g => get_points points_map (Z.of_nat g)
  | None => []
  end.

Definition annotated_frame (points_map : points_table) (frame_size : nat * nat)
    (img_name : text) : option Image :=
  (fun frame => draw_points (resize frame frame_size) (image_points points_map img_name))
    <$> imread img_name.

Definition frame_rows (points_map : points_table) (it : nat * text) : list CsvRow :=
  match imread it.2 with
  | None => []
  | Some _ => map (make_row it.1) (image_points points_map it.2)
  end.

Definition decodes (img_name : text) : bool :=
  match imread img_name with Some _ => true | None => false end.

Definition process_chunk (points_map : points_table) (frame_size : nat * nat)
    (video_images : list text) : chunk_state :=
  foldl (process_frame points_map frame_size)
        {| out_clean := []; out_annotated := []; chunk_csv_data := [] |}
        (enumerate video_images).

Definition save_chunk_csv (video_csv_path : text) (rows : list CsvRow) : csv_outcome :=
  match rows with
  | [] => CsvSkipped
  | _ => CsvWrite fieldnames rows (csv_write_ok video_csv_path)
  end.

(** Everything one iteration of the loop over chunks leaves behind. *)
Record clip := {
  current_vid_idx : nat;
  video_images : list text;
  clean_path : text;
  annotated_path : text;
  video_csv_path : text;
  clean_frames : list Image;
  annotated_frames : list Image;
  csv_rows : list CsvRow;
  csv_file : csv_outcome
}.

Definition make_clip (points_map : points_table) (frame_size : nat * nat)
    (images : list text) (output_prefix : text) (frames_per_video starting_index i : nat) : clip :=
  let start_idx := i * frames_per_video in
  let end_idx := Nat.min (start_idx + frames_per_video) (length images) in
  let video_images := slice images start_idx end_idx in
  let current_vid_idx := starting_index + i in
  let st := process_chunk points_map frame_size video_images in
  {| current_vid_idx := current_vid_idx;
     video_images := video_images;
     clean_path := clean_name output_prefix current_vid_idx;
     annotated_path := annotated_name output_prefix current_vid_idx;
     video_csv_path := csv_name output_prefix current_vid_idx;
     clean_frames := out_clean st;
     annotated_frames := out_annotated st;
     csv_rows := chunk_csv_data st;
     csv_file := save_chunk_csv (csv_name output_prefix current_vid_idx) (chunk_csv_data st) |}.

(** The sorted list of images of the input folder. *)
Definition list_images (input_listing : list text) : list text :=
  natsorted (List.filter is_image_name input_listing).

(** The calls that draw the markers of [points], one after the other, each
    on the frame the one before has left. *)
Fixpoint circle_calls (frame : Image) (points : list Point) : list external_call :=
  match points with
  | [] => []
  | p :: points' =>
      Circle frame (x p) (y p) :: circle_calls (circle frame (x p) (y p)) points'
  end.

(** The calls of one iteration of the loop over the images of a chunk, in
    the order they are made when none of them raises. *)
Definition frame_calls (points_map : points_table) (frame_size : nat * nat)
    (clean_path annotated_path : text) (img_name : text) : list external_call :=
  Imread img_name ::
  match imread img_name with
  | None => []
  | Some frame =>
      let frame' := resize frame frame_size in
      let points := image_points points_map img_name in
      Resize frame frame_size :: Write clean_path frame' ::
      circle_calls frame' points ++ [Write annotated_path (draw_points frame' points)]
  end.

(** The calls of one iteration of the loop over the chunks. *)
Definition chunk_calls (points_map : points_table) (frame_size : nat * nat)
    (images : list text) (output_prefix : text)
    (frames_per_video starting_index i : nat) : list external_call :=
  let start_idx := i * frames_per_video in
  let end_idx := Nat.min (start_idx + frames_per_video) (length images) in
  let video_images := slice images start_idx end_idx in
  let clean_path := clean_name output_prefix (starting_index + i) in
  let annotated_path := annotated_name output_prefix (starting_index + i) in
  OpenWriter clean_path frame_size :: OpenWriter annotated_path frame_size ::
  concat (map (frame_calls points_map frame_size clean_path annotated_path) video_images)
  ++ [Release clean_path; Release annotated_path].

(** The exception of the first call that raises, if any does. *)
Fixpoint first_raise (calls : list external_call) : option py_exception :=
  match calls with
  | [] => None
  | call :: calls' =>
      match raises call with
      | Some e => Some e
      | None => first_raise calls'
      end
  end.

(** [output_prefix] is the base name of the prefix and [out_folder] the
    directory it lies in, so that the names built from the prefix are names
    in that directory; [input_listing] and [out_folder] are what listing the
    two folders gives when it does not raise. The result is the exception that
    ends the run, its own or that of the first external call that raises, or
    else the clips in the order they were produced. The loop over the chunks
    has no handler around the OpenCV calls: the run returns its clips when no
    call of any chunk raises, and then each clip is what [make_clip] says. *)
Definition split_images_to_videos (input_listing : list text)
    (out_folder : option (list text)) (output_prefix : text) (csv : csv_source)
    (frames_per_video : nat) (frame_size : option (nat * nat))
    : py_exception + list clip :=
  let points_map := load_csv_data csv in
  match raises ListInputFolder with
  | Some e => inl e
  | None =>
  let images := list_images input_listing in
  let total_images := length images in
  match images with
  | [] => inl ValueError
  | first :: _ =>
      match raises (Imread first) with
      | Some e => inl e
      | None =>
      match imread first with
      | None => inl RuntimeError
      | Some first_frame =>
          let frame_size := default (shape first_frame) frame_size in
          if (frames_per_video =? 0)%nat then inl ZeroDivisionError
          else
            match math_ceil_quotient total_images frames_per_video with
            | None => inl OverflowError
            | Some total_videos =>
            match raises PrepareOutputFolder with
            | Some e => inl e
            | None =>
            let starting_index := get_next_video_index output_prefix out_folder in
            match first_raise
                    (concat (map (chunk_calls points_map frame_size images output_prefix
                                              frames_per_video starting_index)
                                 (seq 0 total_videos))) with
            | Some e => inl e
            | None =>
                inr (map (make_clip points_map frame_size images output_prefix
                                    frames_per_video starting_index)
                         (seq 0 total_videos))
            end
            end
            end
      end
      end
  end
  end.

(** What ends a run, in words: the causes of an abort, each with the
    exception raised. An exception raised inside a handler (reading the
    annotation file, writing a chunk's annotation file) and an image of a chunk
    that decodes to nothing are not among them. *)
Inductive abort_cause (input_listing : list text) (out_folder : option (list text))
    (output_prefix : text) (csv : csv_source) (frames_per_video : nat)
    (frame_size : option (nat * nat)) : py_exception -> Prop :=
  | abort_input_folder e :
      raises ListInputFolder = Some e ->
      abort_cause input_listing out_folder output_prefix csv frames_per_video frame_size e
  | abort_no_images :
      list_images input_listing = [] ->
      abort_cause input_listing out_folder output_prefix csv frames_per_video frame_size
                  ValueError
  | abort_first_imread first e :
      head (list_images input_listing) = Some first ->
      raises (Imread first) = Some e ->
      abort_cause input_listing out_folder output_prefix csv frames_per_video frame_size e
  | abort_first_image first :
      head (list_images input_listing) = Some first ->
      imread first = None ->
      abort_cause input_listing out_folder output_prefix csv frames_per_video frame_size
                  RuntimeError
  | abort_zero_chunk_size :
      frames_per_video = 0 ->
      abort_cause input_listing out_folder output_prefix csv frames_per_video frame_size
                  ZeroDivisionError
  | abort_overflow :
      math_ceil_quotient (length (list_images input_listing)) frames_per_video = None ->
      abort_cause input_listing out_folder output_prefix csv frames_per_video frame_size
                  OverflowError
  | abort_output_folder e :
      raises PrepareOutputFolder = Some e ->
      abort_cause input_listing out_folder output_prefix csv frames_per_video frame_size e
  | abort_chunk_call first raw total_videos i call e :
      head (list_images input_listing) = Some first ->
      imread first = Some raw ->
      math_ceil_quotient (length (list_images input_listing)) frames_per_video
      = Some total_videos ->
      i < total_videos ->
      call ∈ chunk_calls (load_csv_data csv) (default (shape raw) frame_size)
               (list_images input_listing) output_prefix frames_per_video
               (get_next_video_index output_prefix out_folder) i ->
      raises call = Some e ->
      abort_cause input_listing out_folder output_prefix csv frames_per_video frame_size e.

End Run.

End Encoder.

Export Encoder.

(** ** The rows a load gets to read *)

Module Reading.

(** The row raises an exception that the handler of malformed rows lets
    through to the outer handler. *)
Definition stops_load (row : row_dict) : bool :=
  match parse_row row with
  | inr _ | inl ValueError | inl KeyError => false
  | inl _ => true
  end.

(** The rows before the first one that stops the load. *)
Fixpoint rows_read (rows : list row_dict) : list row_dict :=
  match rows with
  | [] => []
  | row :: rest => if stops_load row then [] else row :: rows_read rest
  end.

(** The point of a row, if the row parses and is for the frame [frame]. *)
Definition point_for (frame : Z) (row : row_dict) : option Point :=
  match parse_row row with
  | inr (fr, p) => if decide (fr = frame) then Some p else None
  | inl _ => None
  end.

End Reading.

Export Reading.

(** ** The script's entry point *)

Module Script.

(** [CSV_PATH]: the annotation file lies in the input folder, under this
    name. *)
Definition csv_basename : text := txt "pixel_coords_all_frames.csv".

(** [os.path.exists(CSV_PATH)] is read off the listing of the input folder;
    [csv_records] is what reading the file gives, [None] when [open] raises. *)
Definition csv_of_input (input_listing : list text)
    (csv_records : option (list (list text))) : csv_source :=
  if bool_decide (csv_basename ∈ input_listing) then
    match csv_records with
    | Some records => CsvRecords records
    | None => CsvUnreadable
    end
  else CsvMissing.

Section Main.

Context {Image : Type}.
Variable imread : text -> option Image.
Variable shape : Image -> nat * nat.
Variable resize : Image -> nat * nat -> Image.
Variable circle : Image -> Z -> Z -> Image.
Variable natsorted : list text -> list text.
Variable csv_write_ok : text -> bool.
Variable raises : @external_call Image -> option py_exception.

(** The [__main__] block: prefix [output], 120 frames per video, the frame
    size left to the first image. *)
Definition main (input_listing : list text) (out_folder : option (list text))
    (csv_records : option (list (list text))) : py_exception + list clip :=
  split_images_to_videos imread shape resize circle natsorted csv_write_ok raises
    input_listing out_folder (txt "output")
    (csv_of_input input_listing csv_records) 120 None.

End Main.

End Script.

Export Script.

(** ** A small run

    Concrete stand-ins for the parameters of the encoder, and one input
    folder, one annotation file and one output folder, on which the statements
    below are evaluated. *)

Module Demo.

(** A decoded frame: the image it was read from, its size, and the centres of
    the markers drawn on it. *)
Record image := { source : text; size : nat * nat; markers : list (Z * Z) }.

(** Every image decodes but [f4.png]. *)
Definition imread (img_name : text) : option image :=
  if decide (img_name = txt "f4.png") then None
  else Some {| source := img_name; size := (640, 480); markers := [] |}.

Definition shape (im : image) : nat * nat := size im.

Definition resize (im : image) (frame_size : nat * nat) : image :=
  {| source := source im; size := frame_size; markers := markers im |}.

Definition circle (im : image) (cx cy : Z) : image :=
  {| source := source im; size := size im; markers := markers im ++ [(cx, cy)] |}.

(** The folders below list their names in natural order already. *)
Definition natsorted (names : list text) : list text := names.

(** Writing the annotation file of the fifth clip fails. *)
Definition csv_write_ok (path : text) : bool :=
  negb (bool_decide (path = txt "output_5.csv")).

Definition input_listing : list text :=
  [txt "f1.png"; txt "f2.png"; txt "f3.png"; txt "f4.png"; txt "f5.png";
   txt "f6.PNG"; txt "f7.png"; txt "pixel_coords_all_frames.csv"].

Definition out_folder : option (list text) :=
  Some [txt "output_1_clean.mp4"; txt "output_1_annotated.mp4";
        txt "output_2_clean.mp4"; txt "output_2.csv"].

Definition csv : csv_source :=
  CsvRecords
    [[txt "Frame"; txt "Object Name"; txt "X"; txt "Y"];
     [txt "2"; txt "Cube"; txt "10"; txt "20"];
     [txt "x"; txt "Cube"; txt "11"; txt "21"];
     [txt "5"; txt "Ball"; txt "7"; txt "8"];
     [txt "7"; txt "Ball"; txt "9"; txt "9"];
     [txt "90"; txt "Ball"; txt "1"; txt "1"]].

(** No external call raises. *)
Definition raises (call : @external_call image) : option py_exception := None.

Definition run (frames_per_video : nat) : py_exception + list (@clip image) :=
  split_images_to_videos imread shape resize circle natsorted csv_write_ok raises
    input_listing out_folder (txt "output") csv frames_per_video None.

Definition clips (frames_per_video : nat) : list (@clip image) :=
  match run frames_per_video with inr cs => cs | inl _ => [] end.

(** OpenCV as it is: [cv2.resize] raises for an empty size, [cv2.circle] for
    a coordinate outside the range of a C int. *)
Definition cv_raises (call : @external_call image) : option py_exception :=
  match call with
  | Resize _ (0, _) | Resize _ (_, 0) => Some Cv2Error
  | Circle _ cx cy =>
      if ((cx <? - 2 ^ 31) || (2 ^ 31 <=? cx) || (cy <? - 2 ^ 31) || (2 ^ 31 <=? cy))%Z
      then Some Cv2Error else None
  | _ => None
  end.

(** A prefix with no directory part: the folder [''] cannot be created. *)
Definition bare_prefix_raises (call : @external_call image) : option py_exception :=
  match call with
  | PrepareOutputFolder => Some OSError
  | _ => None
  end.

(** A marker whose column does not fit a C int. *)
Definition far_point : Point := {| name := Some (txt "Point_1"); x := 2 ^ 31; y := 20 |}.

End Demo.

(** * Properties *)

Arguments txt : simpl never.
Arguments is_digit : simpl never.
Arguments digit_value : simpl never.

(** ** Texts: prefixes, digit runs, numerals *)

Section TextFacts.

Implicit Types (p s r ds : text) (c : ascii).

Lemma strip_prefix_app p r : strip_prefix p (p ++ r) = Some r.
Proof.
  induction p as [|c p IH]; simpl; [done|].
  by rewrite Ascii.eqb_refl.
Qed.

Lemma strip_prefix_Some p s r : strip_prefix p s = Some r -> s = p ++ r.
Proof.
  revert s. induction p as [|c p IH]; intros s; simpl.
  - by intros [= ->].
  - destruct s as [|d s]; [done|].
    destruct (Ascii.eqb_spec c d) as [->|]; [|done].
    intros H. by rewrite (IH _ H).
Qed.

Lemma startswith_true s p : startswith s p = true <-> exists r, s = p ++ r.
Proof.
  unfold startswith. split.
  - destruct (strip_prefix p s) as [r|] eqn:E; [|done].
    intros _. exists r. by apply strip_prefix_Some.
  - intros [r ->]. by rewrite strip_prefix_app.
Qed.

Lemma contains_true needle s :
  contains needle s = true <-> exists a b, s = a ++ needle ++ b.
Proof.
  induction s as [|c s IH]; simpl.
  - rewrite orb_false_r, startswith_true. split.
    + intros [r E]. by exists [], r.
    + intros (a & b & E). destruct a; [|done]. by exists b.
  - rewrite orb_true_iff, startswith_true, IH. split.
    + intros [[r E]|(a & b & ->)]; [by exists [], r | by exists (c :: a), b].
    + intros (a & b & E). destruct a as [|c' a].
      * left. by exists b.
      * right. simpl in E. injection E as -> ->. by exists a, b.
Qed.

Lemma span_digits_app ds r :
  all_digits ds -> no_digit_head r -> span_digits (ds ++ r) = (ds, r).
Proof.
  intros Hds Hr. induction Hds as [|c ds Hc _ IH]; simpl.
  - destruct r as [|c r]; [done|]. simpl in *. by rewrite Hr.
  - by rewrite Hc, IH.
Qed.

Lemma span_digits_spec s ds r :
  span_digits s = (ds, r) -> s = ds ++ r /\ all_digits ds /\ no_digit_head r.
Proof.
  revert ds r. induction s as [|c s IH]; intros ds r; simpl.
  - intros [= <- <-]. repeat split. constructor.
  - destruct (is_digit c) eqn:Hc.
    + destruct (span_digits s) as [ds' r'] eqn:E. intros [= <- <-].
      destruct (IH _ _ eq_refl) as (-> & Hds & Hr).
      repeat split; [by constructor | done].
    + intros [= <- <-]. repeat split; [constructor | done].
Qed.

(** Numerals: [int(str(n)) = n]. *)

Lemma uint_chars_digits d : all_digits (uint_chars d).
Proof. induction d; simpl; by constructor. Qed.

Lemma int_digits_uint_acc d acc :
  fold_left (fun a c => 10 * a + digit_value c) (uint_chars d) acc
  = Nat.of_uint_acc d acc.
Proof.
  revert acc. induction d; intros acc; simpl; [done|..];
    rewrite IHd, Nat.tail_mul_spec; f_equal; unfold digit_value; simpl; lia.
Qed.

Lemma int_digits_str n : int_digits (str n) = n.
Proof.
  unfold int_digits, str. rewrite int_digits_uint_acc.
  apply (Unsigned.of_to n).
Qed.

Lemma str_digits n : all_digits (str n).
Proof. apply uint_chars_digits. Qed.

Lemma str_nonempty n : str n <> [].
Proof.
  unfold str.
  assert (Nat.to_uint n <> Decimal.Nil) as Hn.
  { pose proof (Unsigned.to_of (Nat.to_uint n)) as H.
    rewrite Unsigned.of_to in H. rewrite H. unfold Decimal.unorm.
    by destruct (Decimal.nzhead (Nat.to_uint n)). }
  by destruct (Nat.to_uint n).
Qed.

End TextFacts.

(** ** Output indexer: the pattern and the search *)

Section IndexerFacts.

Implicit Types (prefix f s a b ds : text) (n : nat).

Lemma match_here_intro prefix ds b :
  ds <> [] -> all_digits ds ->
  match_here prefix (prefix ++ txt "_" ++ ds ++ clean_suffix ++ b) = Some ds.
Proof.
  intros Hne Hds. unfold match_here.
  rewrite strip_prefix_app. cbn [mbind option_bind].
  rewrite strip_prefix_app. cbn [mbind option_bind].
  rewrite (span_digits_app ds (clean_suffix ++ b) Hds) by done.
  destruct ds as [|c ds]; [done|].
  by rewrite strip_prefix_app.
Qed.

Lemma match_here_elim prefix s ds :
  match_here prefix s = Some ds ->
  ds <> [] /\ all_digits ds /\
  exists b, s = prefix ++ txt "_" ++ ds ++ clean_suffix ++ b.
Proof.
  unfold match_here.
  destruct (strip_prefix prefix s) as [r1|] eqn:E1; cbn [mbind option_bind]; [|done].
  destruct (strip_prefix (txt "_") r1) as [r2|] eqn:E2; cbn [mbind option_bind]; [|done].
  destruct (span_digits r2) as [ds' r3] eqn:E3.
  destruct ds' as [|c ds']; [done|].
  destruct (strip_prefix clean_suffix r3) as [r4|] eqn:E4; cbn [mbind option_bind]; [|done].
  intros [= <-].
  apply strip_prefix_Some in E1, E2, E4.
  apply span_digits_spec in E3 as (E3 & Hds & _).
  repeat split; [done | done |].
  exists r4. by rewrite E1, E2, E3, E4, <- ?app_assoc.
Qed.

Lemma match_here_occurs prefix a r ds :
  match_here prefix r = Some ds <-> occurs_at prefix (a ++ r) a ds.
Proof.
  split.
  - intros (Hne & Hds & b & ->)%match_here_elim. repeat split; eauto.
  - intros (Hne & Hds & b & E). apply app_inv_head in E as ->.
    by apply match_here_intro.
Qed.

Lemma re_search_None prefix s :
  re_search prefix s = None <->
  forall a r, s = a ++ r -> match_here prefix r = None.
Proof.
  induction s as [|c s IH]; simpl.
  - destruct (match_here prefix []) eqn:E.
    + split; [done|]. intros H. specialize (H [] [] eq_refl). congruence.
    + split; [|done]. intros _ a r Har.
      symmetry in Har. apply app_eq_nil in Har as [_ ->]. done.
  - destruct (match_here prefix (c :: s)) eqn:E.
    + split; [done|]. intros H. specialize (H [] _ eq_refl). congruence.
    + rewrite IH. split.
      * intros H a r Har. destruct a as [|c' a]; simpl in Har.
        -- by subst r.
        -- injection Har as -> ->. by apply (H a).
      * intros H a r ->. by apply (H (c :: a)).
Qed.

Lemma re_search_Some prefix s ds :
  re_search prefix s = Some ds <->
  exists a r, s = a ++ r /\ match_here prefix r = Some ds /\
    forall a' r', s = a' ++ r' -> length a' < length a ->
                  match_here prefix r' = None.
Proof.
  revert ds. induction s as [|c s IH]; intros ds; simpl.
  - destruct (match_here prefix []) eqn:E.
    + split.
      * intros [= ->]. exists [], []. repeat split; [done|].
        intros ?? _ Hl. simpl in Hl. lia.
      * intros (a & r & Har & Hm & _).
        symmetry in Har. apply app_eq_nil in Har as [_ ->]. congruence.
    + split; [done|]. intros (a & r & Har & Hm & _).
      symmetry in Har. apply app_eq_nil in Har as [_ ->]. congruence.
  - destruct (match_here prefix (c :: s)) eqn:E.
    + split.
      * intros [= ->]. exists [], (c :: s). repeat split; [done|].
        intros ?? _ Hl. simpl in Hl. lia.
      * intros (a & r & Har & Hm & Hleft). destruct a as [|c' a].
        -- simpl in Har. subst r. congruence.
        -- specialize (Hleft [] (c :: s) eq_refl). simpl in Hleft.
           rewrite Hleft in E by lia. done.
    + rewrite IH. split.
      * intros (a & r & -> & Hm & Hleft). exists (c :: a), r.
        repeat split; [done|]. intros a' r' Har Hl.
        destruct a' as [|c' a']; simpl in Har.
        -- by subst r'.
        -- injection Har as <- Har. apply (Hleft a'); [done | simpl in Hl; lia].
      * intros (a & r & Har & Hm & Hleft). destruct a as [|c' a].
        -- simpl in Har. subst r. congruence.
        -- simpl in Har. injection Har as <- ->. exists a, r.
           repeat split; [done|]. intros a' r' Har Hl.
           apply (Hleft (c :: a')); [by rewrite Har | simpl; lia].
Qed.

Lemma file_index_counted prefix f n :
  file_index prefix f = Some n <-> counted prefix f n.
Proof.
  unfold file_index, counted. split.
  - destruct (startswith f prefix) eqn:Hp; [|done].
    destruct (contains clean_suffix f) eqn:Hc; [|done]. simpl.
    destruct (re_search prefix f) as [ds|] eqn:Hs; [|done].
    intros [= <-]. split; [done|].
    apply re_search_Some in Hs as (a & r & -> & Hm & Hleft).
    exists a, ds. split; [by apply match_here_occurs|]. split; [done|].
    intros a' ds' Hocc. destruct (decide (length a <= length a')); [done|].
    destruct Hocc as (Hne & Hds & b & E).
    specialize (Hleft a' _ E ltac:(lia)).
    by rewrite match_here_intro in Hleft.
  - intros (Hp & a & ds & Hocc & -> & Hleft). rewrite Hp.
    pose proof Hocc as (Hne & Hds & b & E).
    assert (contains clean_suffix f = true) as ->.
    { apply contains_true. exists (a ++ prefix ++ txt "_" ++ ds), b.
      by rewrite E, <- ?app_assoc. }
    simpl.
    assert (re_search prefix f = Some ds) as ->; [|done].
    apply re_search_Some. eexists a, _. split; [exact E|].
    split; [by apply match_here_intro|].
    intros a' r' E' Hl.
    destruct (match_here prefix r') as [ds'|] eqn:Hm; [|done].
    assert (occurs_at prefix f a' ds') as Hocc'.
    { rewrite E'. by apply match_here_occurs. }
    apply Hleft in Hocc'. lia.
Qed.

Lemma counted_functional prefix f n m :
  counted prefix f n -> counted prefix f m -> n = m.
Proof. rewrite <- !file_index_counted. congruence. Qed.

Lemma exact_counted prefix f n : exact_clean_name prefix f n -> counted prefix f n.
Proof.
  intros (ds & Hne & Hds & -> & ->). split.
  - apply startswith_true. eauto.
  - exists [], ds. split; [|split; [done|]].
    + repeat split; [done..|]. exists []. by rewrite app_nil_r.
    + intros; simpl; lia.
Qed.

Lemma omap_filter {A B} (q : A -> bool) (g : A -> option B) (l : list A) :
  omap g (List.filter q l) = omap (fun z => if q z then g z else None) l.
Proof.
  induction l as [|z l IH]; simpl; [done|].
  destruct (q z); simpl; [destruct (g z); [apply (f_equal (cons _))|]|]; apply IH.
Qed.

Lemma get_next_video_index_eq prefix folder :
  get_next_video_index prefix folder
  = max_list (omap (file_index prefix) (listdir_makedirs folder)) + 1.
Proof. unfold get_next_video_index. by rewrite omap_filter. Qed.

Lemma next_index_above prefix folder f n :
  f ∈ listdir_makedirs folder -> counted prefix f n ->
  n < get_next_video_index prefix folder.
Proof.
  intros Hf Hn%file_index_counted. rewrite get_next_video_index_eq.
  assert (n ∈ omap (file_index prefix) (listdir_makedirs folder)) as Hin.
  { apply list_elem_of_omap. eauto. }
  apply max_list_elem_of_le in Hin. lia.
Qed.

Lemma clean_name_exact prefix idx : exact_clean_name prefix (clean_name prefix idx) idx.
Proof.
  exists (str idx). split; [apply str_nonempty|]. split; [apply str_digits|].
  split; [by rewrite int_digits_str | done].
Qed.

Lemma clean_name_fresh prefix folder i :
  clean_name prefix (get_next_video_index prefix folder + i) ∉ listdir_makedirs folder.
Proof.
  intros Hin.
  pose proof (next_index_above prefix folder _ _ Hin
                (exact_counted _ _ _ (clean_name_exact _ _))).
  lia.
Qed.

End IndexerFacts.

(** ** Output indexer: the next index *)

(** C3, as amended. [get_next_video_index] returns one more than the largest
    number N carried by a listed name that starts with the prefix and contains
    [<prefix>_<N>_clean.mp4], N being read at the leftmost occurrence; it
    returns 1 when no listed name does. Every name that is exactly
    [<prefix>_<N>_clean.mp4] is counted with its N, and a name in which the
    pattern does not occur changes nothing. *)
Theorem get_next_video_index_spec (prefix : text) (folder : option (list text)) :
  let listing := listdir_makedirs folder in
  let next := get_next_video_index prefix folder in
  (forall f n, f ∈ listing -> counted prefix f n -> n < next) /\
  (next = 1 \/ exists f, f ∈ listing /\ counted prefix f (next - 1)) /\
  ((forall f n, f ∈ listing -> ~ counted prefix f n) -> next = 1) /\
  (forall f n, exact_clean_name prefix f n -> counted prefix f n) /\
  (forall l1 f l2, listing = l1 ++ f :: l2 -> (forall n, ~ counted prefix f n) ->
     next = get_next_video_index prefix (Some (l1 ++ l2))).
Proof.
  intros listing next.
  assert (next = 1 \/ exists f, f ∈ listing /\ counted prefix f (next - 1)) as Hmax.
  { subst next. rewrite get_next_video_index_eq. fold listing.
    destruct (omap (file_index prefix) listing) as [|i indices] eqn:E; [by left|].
    right. assert (i :: indices <> []) as Hne by done.
    apply max_list_elem_of in Hne. rewrite <- E in Hne at 2.
    apply list_elem_of_omap in Hne as (f & Hf & Hi). exists f. split; [done|].
    apply file_index_counted. rewrite Hi. f_equal. lia. }
  split; [|split; [done|split; [|split]]].
  - intros f n Hf Hn. by apply (next_index_above prefix folder f n).
  - intros Hnone. destruct Hmax as [|(f & Hf & Hn)]; [done|].
    by destruct (Hnone _ _ Hf Hn).
  - apply exact_counted.
  - intros l1 f l2 El Hf. subst next. rewrite !get_next_video_index_eq.
    fold listing. rewrite El. simpl. rewrite !omap_app. simpl.
    destruct (file_index prefix f) as [n|] eqn:E; [|done].
    apply file_index_counted in E. by destruct (Hf n).
Qed.

(** A populated folder: the two earlier clips are counted, the annotated clip,
    the annotation file and the stray name are not. *)
Lemma get_next_video_index_spec_witness :
  get_next_video_index (txt "output")
    (Some [txt "output_1_clean.mp4"; txt "output_1_annotated.mp4";
           txt "output_2_clean.mp4"; txt "output_2.csv"; txt "notes.txt"]) = 3
  /\ 2 < get_next_video_index (txt "output")
           (Some [txt "output_1_clean.mp4"; txt "output_2_clean.mp4"]).
Proof.
  split; [reflexivity|].
  apply (proj1 (get_next_video_index_spec (txt "output")
                  (Some [txt "output_1_clean.mp4"; txt "output_2_clean.mp4"]))
               (txt "output_2_clean.mp4") 2).
  - apply list_elem_of_In. simpl. tauto.
  - apply file_index_counted. reflexivity.
Defined.

(** C3, as stated, fails: a name that starts with the prefix and is not of the
    form [<prefix>_<N>_clean.mp4] for any N still raises the result, here from
    1 to 8, because the pattern is searched for anywhere in the name. *)
Lemma get_next_video_index_counts_inexact_name :
  let prefix := txt "out" in
  let f := txt "out_x_out_7_clean.mp4" in
  startswith f prefix = true /\
  (forall n, ~ exact_clean_name prefix f n) /\
  get_next_video_index prefix (Some []) = 1 /\
  get_next_video_index prefix (Some [f]) = 8.
Proof.
  intros prefix f. split; [reflexivity|]. split; [|split; reflexivity].
  intros n (ds & Hne & Hds & _ & E).
  destruct ds as [|c ds]; [done|].
  cbv in E. injection E as <- _. by inversion Hds.
Qed.

(** ** Annotation loader *)

Section LoaderFacts.

Implicit Types (row : row_dict) (rows : list row_dict) (m : points_table).

(** The point a row yields when its three numbers parse. *)
Lemma parse_row_inr row frame p :
  parse_row row = inr (frame, p) <->
  int_field row (txt "Frame") = inr frame /\
  int_field row (txt "X") = inr (x p) /\
  int_field row (txt "Y") = inr (y p) /\
  name p = get_name row.
Proof.
  unfold parse_row. destruct p as [pn px py]. cbn [name x y].
  destruct (int_field row (txt "Frame")) as [e|fr].
  { split; [done | by intros [? _]]. }
  destruct (int_field row (txt "X")) as [e|vx].
  { split; [done | by intros (_ & ? & _)]. }
  destruct (int_field row (txt "Y")) as [e|vy].
  { split; [done | by intros (_ & _ & ? & _)]. }
  split.
  - by intros [= -> -> -> ->].
  - by intros ([= ->] & [= ->] & [= ->] & ->).
Qed.

Lemma get_name_absent row :
  row !! txt "Object Name" = None -> get_name row = Some (txt "Unknown").
Proof. unfold get_name. by intros ->. Qed.

(** As long as no row raises anything but ValueError or KeyError, the loop
    appends the points of the rows that parse, in order, and passes over
    the others. *)
Lemma load_rows_tolerant rows m :
  Forall (fun row => forall e, parse_row row = inl e -> e = ValueError \/ e = KeyError) rows ->
  load_rows rows m
  = foldl (fun m fp => append_point m fp.1 fp.2) m
          (omap (fun row => match parse_row row with inr fp => Some fp | inl _ => None end) rows).
Proof.
  intros H. revert m. induction H as [|row rows Hrow _ IH]; intros m; simpl; [done|].
  destruct (parse_row row) as [e|[frame p]]; simpl; [|apply IH].
  destruct (Hrow e eq_refl) as [-> | ->]; apply IH.
Qed.

(** A row that raises TypeError ends the loop: the rows after it are not
    read. *)
Lemma load_rows_type_error rows1 row rows2 m :
  Forall (fun row => forall e, parse_row row = inl e -> e = ValueError \/ e = KeyError) rows1 ->
  parse_row row = inl TypeError ->
  load_rows (rows1 ++ row :: rows2) m = load_rows rows1 m.
Proof.
  intros H Hrow. revert m. induction H as [|r rows1 Hr _ IH]; intros m; simpl.
  - by rewrite Hrow.
  - destruct (parse_row r) as [e|[frame p]]; [|apply IH].
    destruct (Hr e eq_refl) as [-> | ->]; apply IH.
Qed.

End LoaderFacts.

(** C9: the code departs from the claim on a record shorter than the header.
    DictReader fills the missing column with [None], [int(None)] raises
    TypeError, which the handler for malformed rows does not catch: the load
    stops there and the well-formed row after it is lost, where the claim has
    the short row passed over and the next one loaded. *)
Theorem load_csv_data_short_record_stops_load :
  let header := [txt "Frame"; txt "X"; txt "Y"] in
  let short := [txt "1"; txt "2"] in
  let good := [txt "3"; txt "4"; txt "5"] in
  parse_row (zip_fields header short ∅) = inl TypeError /\
  load_csv_data (CsvRecords [header; short; good]) = ∅ /\
  load_csv_data (CsvRecords [header; good])
  = {[ 3%Z := [ {| name := Some (txt "Unknown"); x := 4; y := 5 |} ] ]}.
Proof. repeat split; vm_compute; reflexivity. Qed.

(** ** Chunker / encoder: one chunk *)

Section ChunkFacts.

Context {Image : Type}.
Variable imread : text -> option Image.
Variable resize : Image -> nat * nat -> Image.
Variable circle : Image -> Z -> Z -> Image.
Variable points_map : points_table.
Variable frame_size : nat * nat.

Local Abbreviation step := (process_frame imread resize circle points_map frame_size).
Local Abbreviation chunk := (process_chunk imread resize circle points_map frame_size).
Local Abbreviation clean := (clean_frame imread resize frame_size).
Local Abbreviation annotated := (annotated_frame imread resize circle points_map frame_size).
Local Abbreviation rows := (frame_rows imread points_map).

Lemma enumerate_from_app {A} i (l1 l2 : list A) :
  enumerate_from i (l1 ++ l2)
  = enumerate_from i l1 ++ enumerate_from (i + length l1) l2.
Proof.
  revert i. induction l1 as [|a l1 IH]; intros i; simpl.
  - by rewrite Nat.add_0_r.
  - rewrite IH. do 3 f_equal. lia.
Qed.

Lemma enumerate_from_snd {A} i (l : list A) : (enumerate_from i l).*2 = l.
Proof. revert i. induction l as [|a l IH]; intros i; simpl; by rewrite ?IH. Qed.

Lemma enumerate_from_lookup {A} i (l : list A) j a :
  (j, a) ∈ enumerate_from i l -> i <= j /\ l !! (j - i) = Some a.
Proof.
  revert i. induction l as [|b l IH]; intros i; simpl.
  - by intros ?%elem_of_nil.
  - intros [[= -> ->]|H]%elem_of_cons.
    + by rewrite Nat.sub_diag.
    + apply IH in H as [Hle H]. split; [lia|].
      by replace (j - i) with (S (j - S i)) by lia.
Qed.

Lemma enumerate_from_elem {A} k (l : list A) j a :
  l !! j = Some a -> (k + j, a) ∈ enumerate_from k l.
Proof.
  revert k j. induction l as [|b l IH]; intros k j; [done|].
  destruct j as [|j]; simpl.
  - intros [= ->]. rewrite Nat.add_0_r. by left.
  - intros H. right. replace (k + S j) with (S k + j) by lia. by apply IH.
Qed.

(** One iteration, output by output. *)
Lemma step_clean st it :
  out_clean (step st it) = out_clean st ++ option_list (clean it.2).
Proof.
  destruct it as [i img]. unfold process_frame, clean_frame. simpl.
  destruct (imread img) as [fr|]; simpl; [|by rewrite app_nil_r].
  by destruct (global_frame_num img).
Qed.

Lemma step_annotated st it :
  out_annotated (step st it) = out_annotated st ++ option_list (annotated it.2).
Proof.
  destruct it as [i img]. unfold process_frame, annotated_frame, image_points. simpl.
  destruct (imread img) as [fr|]; simpl; [|by rewrite app_nil_r].
  by destruct (global_frame_num img).
Qed.

Lemma step_rows st it :
  chunk_csv_data (step st it) = chunk_csv_data st ++ rows it.
Proof.
  destruct it as [i img]. unfold process_frame, frame_rows, image_points. simpl.
  destruct (imread img) as [fr|]; simpl; [|by rewrite app_nil_r].
  destruct (global_frame_num img); simpl; [done | by rewrite app_nil_r].
Qed.

(** The whole loop, output by output. *)
Lemma loop_clean its st :
  out_clean (foldl step st its) = out_clean st ++ omap clean its.*2.
Proof.
  revert st. induction its as [|it its IH]; intros st; simpl.
  - by rewrite app_nil_r.
  - rewrite IH, step_clean, <- app_assoc. f_equal.
    by destruct (clean it.2).
Qed.

Lemma loop_annotated its st :
  out_annotated (foldl step st its) = out_annotated st ++ omap annotated its.*2.
Proof.
  revert st. induction its as [|it its IH]; intros st; simpl.
  - by rewrite app_nil_r.
  - rewrite IH, step_annotated, <- app_assoc. f_equal.
    by destruct (annotated it.2).
Qed.

Lemma loop_rows its st :
  chunk_csv_data (foldl step st its) = chunk_csv_data st ++ concat (map rows its).
Proof.
  revert st. induction its as [|it its IH]; intros st; simpl.
  - by rewrite app_nil_r.
  - by rewrite IH, step_rows, <- app_assoc.
Qed.

Lemma chunk_clean imgs : out_clean (chunk imgs) = omap clean imgs.
Proof. unfold process_chunk, enumerate. by rewrite loop_clean, enumerate_from_snd. Qed.

Lemma chunk_annotated imgs : out_annotated (chunk imgs) = omap annotated imgs.
Proof. unfold process_chunk, enumerate. by rewrite loop_annotated, enumerate_from_snd. Qed.

Lemma chunk_rows imgs :
  chunk_csv_data (chunk imgs) = concat (map rows (enumerate imgs)).
Proof. unfold process_chunk. by rewrite loop_rows. Qed.

Lemma length_omap_clean imgs :
  length (omap clean imgs) = length (List.filter (decodes imread) imgs).
Proof.
  induction imgs as [|img imgs IH]; simpl; [done|].
  unfold clean_frame at 1, decodes at 1.
  destruct (imread img); simpl; [f_equal|]; exact IH.
Qed.

Lemma length_omap_annotated imgs :
  length (omap annotated imgs) = length (List.filter (decodes imread) imgs).
Proof.
  induction imgs as [|img imgs IH]; simpl; [done|].
  unfold annotated_frame at 1, decodes at 1.
  destruct (imread img); simpl; [f_equal|]; exact IH.
Qed.

End ChunkFacts.

(** ** Chunker / encoder: cutting the image list *)

Section SliceFacts.

Context {A : Type}.
Implicit Types (l : list A) (m c i n : nat).

(** [math_ceil_div m c] is the least [n] with [m <= n * c]. *)
Lemma math_ceil_div_bounds m c :
  0 < c -> m <= math_ceil_div m c * c /\ math_ceil_div m c * c < m + c.
Proof.
  intros Hc. unfold math_ceil_div.
  pose proof (Nat.div_mod_eq m c) as E.
  pose proof (Nat.mod_upper_bound m c ltac:(lia)) as Hlt.
  destruct (Nat.eqb_spec (m mod c) 0) as [H0|H0]; nia.
Qed.

Lemma math_ceil_div_pos m c : 0 < c -> 0 < m -> 0 < math_ceil_div m c.
Proof. intros Hc Hm. destruct (math_ceil_div_bounds m c Hc). nia. Qed.

Lemma math_ceil_div_last m c :
  0 < c -> 0 < m ->
  m - (math_ceil_div m c - 1) * c = if (m mod c =? 0)%nat then c else m mod c.
Proof.
  intros Hc Hm. unfold math_ceil_div.
  pose proof (Nat.div_mod_eq m c) as E.
  pose proof (Nat.mod_upper_bound m c ltac:(lia)) as Hlt.
  destruct (Nat.eqb_spec (m mod c) 0) as [H0|H0].
  - assert (0 < m / c) by nia. nia.
  - replace (m / c + 1 - 1) with (m / c) by lia. nia.
Qed.

Lemma length_slice l start stop :
  length (slice l start stop) = Nat.min (stop - start) (length l - start).
Proof. unfold slice. by rewrite length_take, length_drop. Qed.

Lemma slice_lookup l start stop j a :
  slice l start stop !! j = Some a -> l !! (start + j) = Some a.
Proof.
  unfold slice. intros H.
  apply lookup_take_Some in H as [H _]. by rewrite lookup_drop in H.
Qed.

(** The chunk that starts at [i * c], as the loop cuts it. *)
Lemma length_chunk l c i :
  (i + 1) * c <= length l ->
  length (slice l (i * c) (Nat.min (i * c + c) (length l))) = c.
Proof. intros H. rewrite length_slice. lia. Qed.

Lemma length_last_chunk l c i :
  i * c <= length l -> length l <= (i + 1) * c ->
  length (slice l (i * c) (Nat.min (i * c + c) (length l))) = length l - i * c.
Proof. intros H1 H2. rewrite length_slice. lia. Qed.

(** The first [n] chunks, put end to end, are the first [n * c] elements. *)
Lemma concat_chunks l c n :
  concat (map (fun i => slice l (i * c) (Nat.min (i * c + c) (length l))) (seq 0 n))
  = take (n * c) l.
Proof.
  induction n as [|n IH]; [done|].
  rewrite seq_S, map_app, concat_app, IH. simpl. rewrite app_nil_r.
  unfold slice. rewrite take_take_drop.
  destruct (decide (n * c + c <= length l)).
  - f_equal. lia.
  - rewrite !take_ge by lia. done.
Qed.

End SliceFacts.

(** ** The frame number in an image name *)

Section FrameNumberFacts.

Implicit Types (s a b ds run : text) (c : ascii).

Lemma findall_from_no_digits run s :
  no_digits s ->
  findall_from run s = match run with [] => [] | _ => [rev run] end.
Proof.
  intros H. revert run. induction H as [|c s Hc _ IH]; intros run; simpl; [done|].
  rewrite Hc. destruct run; by rewrite IH.
Qed.

Lemma findall_from_digits run ds s :
  all_digits ds -> findall_from run (ds ++ s) = findall_from (rev ds ++ run) s.
Proof.
  intros H. revert run. induction H as [|c ds Hc _ IH]; intros run; simpl; [done|].
  by rewrite Hc, IH, <- app_assoc.
Qed.

(** A character that is not a digit closes the run being read: what follows
    is read afresh. *)
Lemma findall_from_cut run a c s :
  is_digit c = false ->
  findall_from run (a ++ c :: s) = findall_from run (a ++ [c]) ++ findall_from [] s.
Proof.
  intros Hc. revert run. induction a as [|d a IH]; intros run; simpl.
  - rewrite Hc. by destruct run.
  - destruct (is_digit d); [apply IH|].
    destruct run; simpl; by rewrite IH.
Qed.

Lemma findall_from_run ds b :
  ds <> [] -> all_digits ds -> no_digits b -> findall_from [] (ds ++ b) = [ds].
Proof.
  intros Hne Hds Hb.
  rewrite findall_from_digits, app_nil_r, findall_from_no_digits by done.
  rewrite rev_involutive. destruct (rev ds) eqn:E; [|done].
  apply (f_equal (@rev _)) in E. rewrite rev_involutive in E. done.
Qed.

Lemma last_findall_digits a ds b :
  ds <> [] -> all_digits ds -> no_digit_last a -> no_digits b ->
  last (findall_digits (a ++ ds ++ b)) = Some ds.
Proof.
  intros Hne Hds Ha Hb. unfold findall_digits.
  destruct a as [|c0 a0] using rev_ind.
  - simpl. by rewrite findall_from_run.
  - clear IHa0. unfold no_digit_last in Ha. rewrite last_snoc in Ha.
    rewrite <- app_assoc. simpl.
    rewrite (findall_from_cut [] a0 c0 (ds ++ b) Ha).
    rewrite (findall_from_run ds b) by done.
    by rewrite last_snoc.
Qed.

Lemma global_frame_num_last_run a ds b :
  ds <> [] -> all_digits ds -> no_digit_last a -> no_digits b ->
  global_frame_num (a ++ ds ++ b) = Some (int_digits ds).
Proof.
  intros. unfold global_frame_num. by rewrite last_findall_digits.
Qed.

Lemma global_frame_num_no_digits s : no_digits s -> global_frame_num s = None.
Proof.
  intros H. unfold global_frame_num, findall_digits.
  by rewrite findall_from_no_digits.
Qed.

End FrameNumberFacts.

(** ** The number of chunks: [math.ceil] of a float quotient *)

Section FloatFacts.

Local Open Scope Z_scope.

Lemma quotient_exponent_spec (m c : Z) :
  0 < c <= m ->
  0 <= quotient_exponent m c /\
  c * 2 ^ quotient_exponent m c <= m < c * 2 ^ (quotient_exponent m c + 1).
Proof.
  intros [Hc Hm]. unfold quotient_exponent.
  pose proof (Z.log2_spec m ltac:(lia)) as [Hm1 Hm2].
  pose proof (Z.log2_spec c Hc) as [Hc1 Hc2].
  pose proof (Z.log2_le_mono c m Hm) as Hle.
  pose proof (Z.log2_nonneg c) as Hlc.
  set (lm := Z.log2 m) in *. set (lc := Z.log2 c) in *.
  assert (2 ^ lm = 2 ^ lc * 2 ^ (lm - lc)) as Epow.
  { rewrite <- Z.pow_add_r by lia. f_equal. lia. }
  rewrite Z.pow_succ_r in Hm2, Hc2 by lia.
  assert (0 < 2 ^ lc) by (apply Z.pow_pos_nonneg; lia).
  assert (0 < 2 ^ (lm - lc)) by (apply Z.pow_pos_nonneg; lia).
  destruct (Z.leb_spec (c * 2 ^ (lm - lc)) m) as [H1|H1].
  - split; [lia|]. split; [done|].
    rewrite Z.pow_add_r, Z.pow_1_r by lia. nia.
  - assert (lm - lc <> 0) as Hne.
    { intros E. rewrite E, Z.pow_0_r in H1. lia. }
    assert (2 ^ (lm - lc) = 2 * 2 ^ (lm - lc - 1)) as E2.
    { rewrite <- Z.pow_succ_r by lia. f_equal. lia. }
    assert (0 < 2 ^ (lm - lc - 1)) by (apply Z.pow_pos_nonneg; lia).
    split; [lia|]. split; [nia|].
    replace (lm - lc - 1 + 1) with (lm - lc) by lia. done.
Qed.

Lemma round_half_even_bounds (a b : Z) :
  a / b <= round_half_even a b <= a / b + 1.
Proof.
  unfold round_half_even.
  destruct (2 * (a mod b) <? b), (b <? 2 * (a mod b)), (Z.even (a / b)); lia.
Qed.

Lemma round_half_even_up (a b : Z) :
  b < 2 * (a mod b) -> round_half_even a b = a / b + 1.
Proof.
  intros H. unfold round_half_even.
  destruct (Z.ltb_spec (2 * (a mod b)) b); [lia|].
  destruct (Z.ltb_spec b (2 * (a mod b))); [done | lia].
Qed.

Lemma round_half_even_exact (a b : Z) :
  0 < b -> a mod b = 0 -> round_half_even a b = a / b.
Proof.
  intros Hb H. unfold round_half_even. rewrite H.
  destruct (Z.ltb_spec (2 * 0) b); [done | lia].
Qed.

(** Below 2^53 the float quotient is never an integer unless the quotient
    is, and its ceiling is the ceiling of the quotient. *)
Lemma ceil_of_quotient_exact (m c : Z) :
  0 <= m -> 0 < c -> m < 2 ^ 53 -> c < 2 ^ 1075 ->
  ceil_of_quotient m c = Some (m / c + (if m mod c =? 0 then 0 else 1)).
Proof.
  intros Hm Hc Hm53 Hc1075. unfold ceil_of_quotient.
  destruct (Z.eqb_spec m 0) as [->|Hm0].
  { by rewrite Z.div_0_l, Z.mod_0_l by lia. }
  destruct (Z.ltb_spec m c) as [Hlt|Hge].
  { rewrite Z.div_small, Z.mod_small by lia.
    destruct (Z.eqb_spec m 0); [done|].
    destruct (Z.leb_spec (m * 2 ^ 1075) c); [nia | done]. }
  destruct (quotient_exponent_spec m c ltac:(lia)) as (He0 & Hlo & Hhi).
  set (e := quotient_exponent m c) in *.
  assert (e <= 52) as He.
  { destruct (Z.le_gt_cases e 52) as [|Hgt]; [done|].
    assert (2 ^ 53 <= 2 ^ e) by (apply Z.pow_le_mono_r; lia). nia. }
  destruct (Z.leb_spec e 52) as [_|]; [|lia]. f_equal.
  set (P := 2 ^ (52 - e)).
  assert (0 < P) as HP by (apply Z.pow_pos_nonneg; lia).
  assert (2 ^ 53 = 2 ^ e * (2 * P)) as E53.
  { unfold P. rewrite <- Z.pow_succ_r, <- Z.pow_add_r by lia. f_equal. lia. }
  assert (0 < 2 ^ e) as Hpe by (apply Z.pow_pos_nonneg; lia).
  assert (c < 2 * P) as HcP by nia.
  pose proof (Z.div_mod m c ltac:(lia)) as Edm.
  pose proof (Z.mod_pos_bound m c Hc) as Hr.
  set (k := m / c) in *. set (r := m mod c) in *.
  assert (0 <= k) as Hk by (apply Z.div_pos; lia).
  pose proof (round_half_even_bounds (m * P) c) as [HN1 HN2].
  pose proof (Z.div_mod (m * P) c ltac:(lia)) as Edm'.
  pose proof (Z.mod_pos_bound (m * P) c Hc) as Hr'.
  destruct (Z.eqb_spec r 0) as [Hr0|Hr0].
  - (* the quotient is the integer k *)
    assert (m * P = c * (k * P)) as Ea by nia.
    assert ((m * P) mod c = 0) as Emod.
    { rewrite Ea, Z.mul_comm. apply Z.mod_mul. lia. }
    rewrite round_half_even_exact by done.
    assert ((m * P) / c = k * P) as ->.
    { rewrite Ea, Z.mul_comm. apply Z.div_mul. lia. }
    rewrite Z.add_0_r. symmetry. apply (Z.div_unique _ _ _ (P - 1)); lia.
  - (* k < quotient < k + 1: the rounded value lies in (k, k + 1] *)
    set (N := round_half_even (m * P) c) in *.
    set (q := (m * P) / c) in *. set (rho := (m * P) mod c) in *.
    assert (q <= k * P + P - 1) as Hq by nia.
    assert (k * P <= q) as Hq' by nia.
    assert (k * P < N) as HNlo.
    { destruct (Z.eq_dec q (k * P)) as [Eq|]; [|lia].
      assert (rho = r * P) as Erho by nia.
      unfold N. rewrite round_half_even_up; [fold q; lia|]. fold rho. nia. }
    symmetry. apply (Z.div_unique _ _ _ (N - k * P - 1)); lia.
Qed.

Lemma math_ceil_quotient_exact (m c : nat) :
  (0 < c)%nat -> Z.of_nat m < 2 ^ 53 -> Z.of_nat c < 2 ^ 1075 ->
  math_ceil_quotient m c = Some (math_ceil_div m c).
Proof.
  intros Hc Hm53 Hc1075. unfold math_ceil_quotient, math_ceil_div.
  rewrite ceil_of_quotient_exact by lia. simpl. f_equal.
  rewrite <- Nat2Z.inj_div, <- Nat2Z.inj_mod.
  destruct (Nat.eqb_spec (m mod c) 0) as [E|E];
    destruct (Z.eqb_spec (Z.of_nat (m mod c)) 0); lia.
Qed.

End FloatFacts.

(** ** Chunker / encoder: the run *)

Section RunFacts.

Context {Image : Type}.
Variable imread : text -> option Image.
Variable shape : Image -> nat * nat.
Variable resize : Image -> nat * nat -> Image.
Variable circle : Image -> Z -> Z -> Image.
Variable natsorted : list text -> list text.
Variable csv_write_ok : text -> bool.
Variable raises : @external_call Image -> option py_exception.

Local Abbreviation run :=
  (split_images_to_videos imread shape resize circle natsorted csv_write_ok raises).
Local Abbreviation clip_of := (make_clip imread resize circle csv_write_ok).
Local Abbreviation images_of := (list_images natsorted).
Local Abbreviation chunk := (process_chunk imread resize circle).
Local Abbreviation calls_of := (chunk_calls imread resize circle).

Lemma first_raise_None (calls : list (@external_call Image)) :
  first_raise raises calls = None <-> forall call, call ∈ calls -> raises call = None.
Proof.
  induction calls as [|call calls IH]; simpl.
  - split; [|done]. by intros _ call ?%elem_of_nil.
  - destruct (raises call) as [e|] eqn:E.
    + split; [done|]. intros H. specialize (H call ltac:(left)). congruence.
    + rewrite IH. split.
      * intros H call' [->|Hin]%elem_of_cons; auto.
      * intros H call' Hin. apply H. by right.
Qed.


Lemma elem_of_chunks_calls (calls : nat -> list (@external_call Image)) n call :
  call ∈ concat (map calls (seq 0 n)) <-> exists i, i < n /\ call ∈ calls i.
Proof.
  rewrite list_elem_of_In, in_concat. split.
  - intros (l & (i & <- & Hi)%in_map_iff & Hin). apply in_seq in Hi.
    exists i. split; [lia | by apply list_elem_of_In].
  - intros (i & Hi & Hin). exists (calls i). split.
    + apply in_map, in_seq. lia.
    + by apply list_elem_of_In.
Qed.

(** A run that returns has passed the checks, and its clips are those of
    the chunks [0 .. total_videos - 1]. *)
Lemma run_inr input_listing out_folder prefix csv C fs clips :
  run input_listing out_folder prefix csv C fs = inr clips ->
  exists first rest first_frame n,
    images_of input_listing = first :: rest /\
    imread first = Some first_frame /\
    0 < C /\
    math_ceil_quotient (length (images_of input_listing)) C = Some n /\
    clips = map (clip_of (load_csv_data csv) (default (shape first_frame) fs)
                         (images_of input_listing) prefix C
                         (get_next_video_index prefix out_folder))
                (seq 0 n).
Proof.
  unfold split_images_to_videos.
  destruct (raises ListInputFolder); [done|].
  destruct (images_of input_listing) as [|first rest] eqn:E; [done|].
  destruct (raises (Imread first)); [done|].
  destruct (imread first) as [ff|] eqn:Hff; [|done].
  destruct (Nat.eqb_spec C 0) as [->|HC]; [done|].
  destruct (math_ceil_quotient _ C) as [n|] eqn:Hn; [|done].
  destruct (raises PrepareOutputFolder); [done|].
  destruct (first_raise _ _); [done|].
  intros [= <-]. exists first, rest, ff, n.
  split; [done|]. split; [done|]. split; [lia|]. split; done.
Qed.

Lemma run_ok input_listing out_folder prefix csv C fs first rest first_frame n :
  images_of input_listing = first :: rest ->
  imread first = Some first_frame ->
  0 < C ->
  math_ceil_quotient (length (images_of input_listing)) C = Some n ->
  raises ListInputFolder = None ->
  raises (Imread first) = None ->
  raises PrepareOutputFolder = None ->
  (forall i call, i < n ->
     call ∈ calls_of (load_csv_data csv) (default (shape first_frame) fs)
              (images_of input_listing) prefix C
              (get_next_video_index prefix out_folder) i ->
     raises call = None) ->
  run input_listing out_folder prefix csv C fs
  = inr (map (clip_of (load_csv_data csv) (default (shape first_frame) fs)
                      (images_of input_listing) prefix C
                      (get_next_video_index prefix out_folder))
             (seq 0 n)).
Proof.
  intros E Hff HC Hn H1 H2 H3 Hcalls. unfold split_images_to_videos.
  rewrite H1, E, H2, Hff. rewrite E in Hn.
  destruct (Nat.eqb_spec C 0) as [->|_]; [lia|].
  rewrite Hn, H3.
  assert (first_raise raises
            (concat (map (calls_of (load_csv_data csv) (default (shape first_frame) fs)
                                   (first :: rest) prefix C
                                   (get_next_video_index prefix out_folder))
                         (seq 0 n))) = None) as ->; [|done].
  apply first_raise_None. intros call (i & Hi & Hin)%elem_of_chunks_calls.
  rewrite <- E in Hin. eauto.
Qed.

(** The clip at position [i] of a run. *)
Lemma run_clip input_listing out_folder prefix csv C fs clips i c :
  run input_listing out_folder prefix csv C fs = inr clips ->
  clips !! i = Some c ->
  let images := images_of input_listing in
  exists frame_size,
    0 < C /\ 0 < length images /\
    i < length clips /\
    math_ceil_quotient (length images) C = Some (length clips) /\
    c = clip_of (load_csv_data csv) frame_size images prefix C
                (get_next_video_index prefix out_folder) i.
Proof.
  intros (first & rest & ff & n & E & Hff & HC & Hn & ->)%run_inr Hi images.
  exists (default (shape ff) fs).
  rewrite list_lookup_fmap in Hi.
  destruct (seq 0 _ !! i) as [j|] eqn:Hj; [|done].
  apply lookup_seq in Hj as [-> Hlt]. injection Hi as <-.
  rewrite length_map, length_seq.
  subst images. rewrite E in *.
  split; [done|]. split; [simpl; lia|]. done.
Qed.

Lemma save_chunk_csv_write path rows header rows' completed :
  save_chunk_csv csv_write_ok path rows = CsvWrite header rows' completed ->
  header = fieldnames /\ rows' = rows /\ rows <> [] /\ completed = csv_write_ok path.
Proof.
  unfold save_chunk_csv. destruct rows as [|r rows]; [done|].
  by intros [= <- <- <-].
Qed.


(** The rows collected for a chunk, each with the image it comes from. *)
Lemma chunk_row_origin points_map frame_size imgs row :
  row ∈ chunk_csv_data (chunk points_map frame_size imgs) ->
  exists img p,
    imgs !! Frame row = Some img /\ decodes imread img = true /\
    p ∈ image_points points_map img /\ row = make_row (Frame row) p.
Proof.
  rewrite chunk_rows, list_elem_of_In, in_concat.
  intros (rs & (it & <- & Hit)%in_map_iff & Hrow).
  apply list_elem_of_In in Hit, Hrow. destruct it as [j img].
  apply enumerate_from_lookup in Hit as [_ Hj]. rewrite Nat.sub_0_r in Hj.
  unfold frame_rows, decodes in *. simpl in Hrow.
  destruct (imread img) as [fr|] eqn:Hfr; [|by apply elem_of_nil in Hrow].
  apply list_elem_of_fmap in Hrow as (p & -> & Hp).
  exists img, p. simpl. by rewrite Hfr.
Qed.

(** C6. In every per-chunk annotation file a run writes, each Frame value is
    below the chunk size, and it is the position in the chunk of the image
    the row comes from: the image at that position of the chunk, which is
    the image at position [i * C + Frame] of the sorted list, decodes and
    has the row's point among the points of its frame number. *)
Theorem split_csv_frames_are_chunk_positions
    input_listing out_folder prefix csv C fs clips :
  run input_listing out_folder prefix csv C fs = inr clips ->
  forall i c header rows completed row,
    clips !! i = Some c -> csv_file c = CsvWrite header rows completed -> row ∈ rows ->
    Frame row < C /\
    exists img p,
      video_images c !! Frame row = Some img /\
      images_of input_listing !! (i * C + Frame row) = Some img /\
      decodes imread img = true /\
      p ∈ image_points (load_csv_data csv) img /\
      row = make_row (Frame row) p.
Proof.
  intros Hrun i c header rows completed row Hi Hfile Hrow.
  destruct (run_clip _ _ _ _ _ _ _ _ _ Hrun Hi) as (fsz & _ & _ & _ & _ & ->).
  simpl in *.
  apply save_chunk_csv_write in Hfile as (_ & -> & _ & _).
  apply chunk_row_origin in Hrow as (img & p & Himg & Hdec & Hp & Erow).
  split.
  - apply lookup_lt_Some in Himg. rewrite length_slice in Himg. lia.
  - exists img, p. split; [done|]. split; [|done].
    by apply slice_lookup in Himg.
Qed.



Local Abbreviation cause := (abort_cause imread shape resize circle natsorted raises).




(** C1, as amended. With chunk size [0 < C < 2^1075] and [0 < M < 2^53]
    images, a run that gets to the loop cuts the sorted image list into
    exactly [ceil(M / C)] chunks (the least [n] with [M <= n * C]): each of the
    first [ceil(M / C) - 1] holds [C] images, the last one holds [M mod C]
    images, or [C] when [M mod C = 0], and the chunks put end to end are the
    image list. *)
Theorem split_chunk_sizes input_listing out_folder prefix csv C fs clips :
  let images := images_of input_listing in
  let M := length images in
  let n := math_ceil_div M C in
  0 < C -> 0 < M ->
  (Z.of_nat M < 2 ^ 53)%Z -> (Z.of_nat C < 2 ^ 1075)%Z ->
  run input_listing out_folder prefix csv C fs = inr clips ->
  length clips = n /\
  (M <= n * C /\ n * C < M + C) /\
  (forall i c, clips !! i = Some c -> i < n - 1 -> length (video_images c) = C) /\
  (forall c, clips !! (n - 1) = Some c ->
     length (video_images c) = if (M mod C =? 0)%nat then C else M mod C) /\
  (exists c, clips !! (n - 1) = Some c) /\
  concat (video_images <$> clips) = images.
Proof.
  intros images M n HC HM HM53 HC1075 Hrun.
  pose proof (math_ceil_div_bounds M C HC) as [Hlo Hhi].
  pose proof (math_ceil_div_pos M C HC HM) as Hn.
  pose proof Hrun as (first & rest & ff & n' & E & Hff & _ & Hn' & Hclips)%run_inr.
  fold images M in Hn'.
  rewrite (math_ceil_quotient_exact M C HC HM53 HC1075) in Hn'.
  injection Hn' as <-.
  fold images M n in Hlo, Hhi, Hn, Hclips.
  assert (length clips = n) as Hlen.
  { by rewrite Hclips, length_map, length_seq. }
  split; [done|]. split; [done|]. split; [|split; [|split]].
  - intros i c Hi Hlt.
    destruct (run_clip _ _ _ _ _ _ _ _ _ Hrun Hi) as (fsz & _ & _ & _ & _ & ->).
    simpl. apply length_chunk. fold images M. nia.
  - intros c Hi.
    destruct (run_clip _ _ _ _ _ _ _ _ _ Hrun Hi) as (fsz & _ & _ & _ & _ & ->).
    simpl. rewrite length_last_chunk; fold images M n; [|nia..].
    by apply math_ceil_div_last.
  - apply lookup_lt_is_Some. lia.
  - rewrite Hclips, <- list_fmap_compose. simpl.
    change (concat (map (fun i => slice images (i * C) (Nat.min (i * C + C) (length images)))
                        (seq 0 n)) = images).
    rewrite concat_chunks, take_ge; [done|]. fold M. lia.
Qed.

(** C2. In a run, the index given to every new chunk is above the number N
    of every name [<prefix>_<N>_clean.mp4] the output folder already holds,
    and the clean video of the chunk is written under a name the folder
    did not hold. *)
Theorem split_indices_above_existing input_listing out_folder prefix csv C fs clips :
  run input_listing out_folder prefix csv C fs = inr clips ->
  forall c, c ∈ clips ->
    (forall f N, f ∈ listdir_makedirs out_folder ->
                 exact_clean_name prefix f N -> N < current_vid_idx c) /\
    clean_path c = clean_name prefix (current_vid_idx c) /\
    clean_path c ∉ listdir_makedirs out_folder.
Proof.
  intros Hrun c [i Hi]%list_elem_of_lookup.
  destruct (run_clip _ _ _ _ _ _ _ _ _ Hrun Hi) as (fsz & _ & _ & _ & _ & ->).
  simpl. split; [|split; [done|]].
  - intros f N Hf HN%exact_counted.
    pose proof (next_index_above prefix out_folder f N Hf HN). lia.
  - apply clean_name_fresh.
Qed.

(** C4. For every chunk of a run, the clean and the annotated video get the
    same number of frames, one for each image of the chunk that decodes,
    whatever the annotation table holds for the chunk. *)
Theorem split_frame_counts_match input_listing out_folder prefix csv C fs clips :
  run input_listing out_folder prefix csv C fs = inr clips ->
  forall c, c ∈ clips ->
    length (clean_frames c) = length (annotated_frames c) /\
    length (clean_frames c) = length (List.filter (decodes imread) (video_images c)).
Proof.
  intros Hrun c [i Hi]%list_elem_of_lookup.
  destruct (run_clip _ _ _ _ _ _ _ _ _ Hrun Hi) as (fsz & _ & _ & _ & _ & ->).
  simpl. rewrite chunk_clean, chunk_annotated.
  by rewrite length_omap_clean, length_omap_annotated.
Qed.

End RunFacts.

(** ** Chunker / encoder: frame numbers and local indices *)

Section FrameFacts.

Context {Image : Type}.
Variable imread : text -> option Image.
Variable resize : Image -> nat * nat -> Image.
Variable circle : Image -> Z -> Z -> Image.
Variable points_map : points_table.
Variable frame_size : nat * nat.

Local Abbreviation step := (process_frame imread resize circle points_map frame_size).
Local Abbreviation chunk := (process_chunk imread resize circle points_map frame_size).
Local Abbreviation rows := (frame_rows imread points_map).

(** A name has no digit, or it has a last run of digits. *)
Lemma last_digit_run_exists (s : text) :
  no_digits s \/
  exists a ds b, s = a ++ ds ++ b /\ ds <> [] /\ all_digits ds /\
                 no_digit_last a /\ no_digits b.
Proof.
  induction s as [|c s [Hno|(a & ds & b & -> & Hne & Hds & Ha & Hb)]].
  - left. constructor.
  - destruct (is_digit c) eqn:Hc.
    + right. exists [], [c], s. repeat split; try done. by constructor.
    + left. by constructor.
  - right. destruct a as [|c' a].
    + destruct (is_digit c) eqn:Hc.
      * exists [], (c :: ds), b. repeat split; try done. by constructor.
      * exists [c], ds, b. repeat split; done.
    + exists (c :: c' :: a), ds, b. repeat split; done.
Qed.

(** C8. Every image name either has no digit or has a last run of digits.
    In the second case the frame number looked up in the annotation table is
    the integer value of that run: its points give the rows and the markers
    of the frame. In the first case the frame, once decoded, gets no row and
    no marker, and is written as it is to both outputs. *)
Theorem frame_number_is_last_digit_run (st : chunk_state) (i : nat) (img : text) (frame : Image) :
  imread img = Some frame ->
  (no_digits img \/
   exists a ds b, img = a ++ ds ++ b /\ ds <> [] /\ all_digits ds /\
                  no_digit_last a /\ no_digits b) /\
  (forall a ds b, img = a ++ ds ++ b -> ds <> [] -> all_digits ds ->
                  no_digit_last a -> no_digits b ->
     global_frame_num img = Some (int_digits ds) /\
     let points := get_points points_map (Z.of_nat (int_digits ds)) in
     step st (i, img) =
       {| out_clean := out_clean st ++ [resize frame frame_size];
          out_annotated :=
            out_annotated st ++ [draw_points circle (resize frame frame_size) points];
          chunk_csv_data := chunk_csv_data st ++ map (make_row i) points |}) /\
  (no_digits img ->
     global_frame_num img = None /\
     step st (i, img) =
       {| out_clean := out_clean st ++ [resize frame frame_size];
          out_annotated := out_annotated st ++ [resize frame frame_size];
          chunk_csv_data := chunk_csv_data st |}).
Proof.
  intros Hfr. split; [apply last_digit_run_exists|]. split.
  - intros a ds b -> Hne Hds Ha Hb.
    pose proof (global_frame_num_last_run a ds b Hne Hds Ha Hb) as Hg.
    split; [done|]. unfold process_frame. by rewrite Hfr, Hg.
  - intros Hno. pose proof (global_frame_num_no_digits img Hno) as Hg.
    split; [done|]. unfold process_frame. by rewrite Hfr, Hg.
Qed.

(** C10. Let an image that decodes stand in a chunk after the images [pre],
    [k] of which do not decode. Its frame is at position [length pre - k] of
    both videos, while the rows it contributes carry [length pre] in the
    Frame column: the Frame value is the position in the chunk's list of
    names, and exceeds the position in the videos by [k]. *)
Theorem local_index_counts_skipped_images (pre post : list text) (img : text) (frame : Image) :
  imread img = Some frame ->
  let st := chunk (pre ++ img :: post) in
  let k := length (List.filter (fun n => negb (decodes imread n)) pre) in
  let pos := length (List.filter (decodes imread) pre) in
  let points := image_points points_map img in
  pos + k = length pre /\
  out_clean st !! pos = Some (resize frame frame_size) /\
  out_annotated st !! pos = Some (draw_points circle (resize frame frame_size) points) /\
  (exists rows_before rows_after,
     chunk_csv_data st = rows_before ++ map (make_row (pos + k)) points ++ rows_after /\
     Forall (fun row => Frame row < pos + k) rows_before /\
     Forall (fun row => pos + k < Frame row) rows_after).
Proof.
  intros Hfr st k pos points.
  assert (pos + k = length pre) as Hlen by apply filter_length.
  split; [done|]. subst st. split; [|split].
  - rewrite chunk_clean, omap_app. simpl. unfold clean_frame at 2.
    rewrite Hfr. simpl. apply list_lookup_middle.
    by rewrite length_omap_clean.
  - rewrite chunk_annotated, omap_app. simpl. unfold annotated_frame at 2.
    rewrite Hfr. simpl. apply list_lookup_middle.
    by rewrite length_omap_annotated.
  - rewrite chunk_rows. unfold enumerate.
    rewrite enumerate_from_app, map_app, concat_app. simpl.
    eexists _, _. split; [|split].
    + f_equal. f_equal. unfold frame_rows. simpl. by rewrite Hfr, Hlen.
    + apply Forall_forall. intros row Hrow.
      apply list_elem_of_In, in_concat in Hrow as (rs & (it & <- & Hit)%in_map_iff & Hrow).
      destruct it as [j n]. apply list_elem_of_In, enumerate_from_lookup in Hit as [_ Hj].
      apply lookup_lt_Some in Hj. unfold frame_rows in Hrow. simpl in Hrow.
      destruct (imread n); [|done].
      apply in_map_iff in Hrow as (p & <- & _). simpl. lia.
    + apply Forall_forall. intros row Hrow.
      apply list_elem_of_In, in_concat in Hrow as (rs & (it & <- & Hit)%in_map_iff & Hrow).
      destruct it as [j n]. apply list_elem_of_In, enumerate_from_lookup in Hit as [Hj _].
      unfold frame_rows in Hrow. simpl in Hrow.
      destruct (imread n); [|done].
      apply in_map_iff in Hrow as (p & <- & _). simpl. lia.
Qed.

End FrameFacts.

(** ** The small run, evaluated *)

Example demo_images :
  list_images Demo.natsorted Demo.input_listing
  = [txt "f1.png"; txt "f2.png"; txt "f3.png"; txt "f4.png"; txt "f5.png";
     txt "f6.PNG"; txt "f7.png"].
Proof. reflexivity. Qed.

Example demo_points :
  load_csv_data Demo.csv
  = {[ 2%Z := [ {| name := Some (txt "Cube"); x := 10; y := 20 |} ];
       5%Z := [ {| name := Some (txt "Ball"); x := 7; y := 8 |} ];
       7%Z := [ {| name := Some (txt "Ball"); x := 9; y := 9 |} ];
       90%Z := [ {| name := Some (txt "Ball"); x := 1; y := 1 |} ] ]}.
Proof. vm_compute. reflexivity. Qed.

Example demo_run_3 :
  map (fun c => (current_vid_idx c, video_images c, length (clean_frames c),
                 length (annotated_frames c), csv_rows c, csv_file c))
      (Demo.clips 3)
  = [ (3, [txt "f1.png"; txt "f2.png"; txt "f3.png"], 3, 3,
       [ {| Frame := 1; ObjectName := Some (txt "Cube"); X := 10; Y := 20 |} ],
       CsvWrite fieldnames
         [ {| Frame := 1; ObjectName := Some (txt "Cube"); X := 10; Y := 20 |} ] true);
      (4, [txt "f4.png"; txt "f5.png"; txt "f6.PNG"], 2, 2,
       [ {| Frame := 1; ObjectName := Some (txt "Ball"); X := 7; Y := 8 |} ],
       CsvWrite fieldnames
         [ {| Frame := 1; ObjectName := Some (txt "Ball"); X := 7; Y := 8 |} ] true);
      (5, [txt "f7.png"], 1, 1,
       [ {| Frame := 0; ObjectName := Some (txt "Ball"); X := 9; Y := 9 |} ],
       CsvWrite fieldnames
         [ {| Frame := 0; ObjectName := Some (txt "Ball"); X := 9; Y := 9 |} ] false) ].
Proof. vm_compute. reflexivity. Qed.


(** Seven images in chunks of three: three clips, the last one of 1 image. *)
Lemma split_chunk_sizes_witness :
  Demo.run 3 = inr (Demo.clips 3) /\
  length (Demo.clips 3) = 3 /\
  exists c, Demo.clips 3 !! 2 = Some c /\ length (video_images c) = 1.
Proof.
  assert (Demo.run 3 = inr (Demo.clips 3)) as Hrun by (vm_compute; reflexivity).
  split; [exact Hrun|].
  destruct (split_chunk_sizes Demo.imread Demo.shape Demo.resize Demo.circle
              Demo.natsorted Demo.csv_write_ok Demo.raises Demo.input_listing Demo.out_folder
              (txt "output") Demo.csv 3 None (Demo.clips 3))
    as (Hlen & _ & _ & Hlast & (c & Hc) & _);
    [lia | simpl; lia | reflexivity | reflexivity | exact Hrun |].
  split; [exact Hlen|]. exists c. split; [exact Hc | exact (Hlast c Hc)].
Defined.

(** The folder holds clips 1 and 2: the first new clip is above both, and its
    name is not in the folder. *)
Lemma split_indices_above_existing_witness :
  Demo.run 3 = inr (Demo.clips 3) /\
  exists c, Demo.clips 3 !! 0 = Some c /\
    2 < current_vid_idx c /\ clean_path c ∉ listdir_makedirs Demo.out_folder.
Proof.
  assert (Demo.run 3 = inr (Demo.clips 3)) as Hrun by (vm_compute; reflexivity).
  split; [exact Hrun|].
  assert (exists c, Demo.clips 3 !! 0 = Some c) as [c Hc]
    by (eexists; vm_compute; reflexivity).
  exists c. split; [exact Hc|].
  destruct (split_indices_above_existing Demo.imread Demo.shape Demo.resize Demo.circle
              Demo.natsorted Demo.csv_write_ok Demo.raises Demo.input_listing Demo.out_folder
              (txt "output") Demo.csv 3 None (Demo.clips 3) Hrun c)
    as (Habove & _ & Hfresh).
  - apply list_elem_of_lookup. by exists 0.
  - split; [|exact Hfresh].
    apply (Habove (txt "output_2_clean.mp4")).
    + apply list_elem_of_In. simpl. tauto.
    + exists (txt "2"). split; [done|]. split; [|done].
      repeat constructor.
Defined.

(** The second clip holds an image that does not decode: both videos get the
    two frames of the other two images. *)
Lemma split_frame_counts_match_witness :
  Demo.run 3 = inr (Demo.clips 3) /\
  exists c, Demo.clips 3 !! 1 = Some c /\
    length (video_images c) = 3 /\
    length (clean_frames c) = length (annotated_frames c) /\
    length (clean_frames c) = 2.
Proof.
  assert (Demo.run 3 = inr (Demo.clips 3)) as Hrun by (vm_compute; reflexivity).
  split; [exact Hrun|].
  assert (exists c, Demo.clips 3 !! 1 = Some c /\ length (video_images c) = 3 /\
                    length (List.filter (decodes Demo.imread) (video_images c)) = 2)
    as (c & Hc & H3 & H2)
    by (eexists; split; [|split]; vm_compute; reflexivity).
  exists c. split; [exact Hc|]. split; [exact H3|].
  destruct (split_frame_counts_match Demo.imread Demo.shape Demo.resize Demo.circle
              Demo.natsorted Demo.csv_write_ok Demo.raises Demo.input_listing Demo.out_folder
              (txt "output") Demo.csv 3 None (Demo.clips 3) Hrun c) as [Heq Hn].
  - apply list_elem_of_lookup. by exists 1.
  - split; [exact Heq|]. by rewrite Hn.
Defined.


(** C1, as stated, fails: with 7 images and a chunk size of 2^1078 the float
    quotient is 0.0 and the run makes no chunk, where the ceiling of the
    quotient is 1. *)
Lemma split_no_chunk_for_huge_chunk_size :
  let C := Z.to_nat (2 ^ 1078) in
  0 < C /\
  length (list_images Demo.natsorted Demo.input_listing) = 7 /\
  math_ceil_div 7 C = 1 /\
  Demo.run C = inr [].
Proof.
  intros C.
  assert (Z.of_nat C = 2 ^ 1078)%Z as EC by (apply Z2Nat.id; by apply Z.pow_nonneg).
  assert (7 < C) as HC.
  { apply Nat2Z.inj_lt. rewrite EC. reflexivity. }
  clearbody C.
  split; [lia|]. split; [reflexivity|]. split.
  - unfold math_ceil_div. rewrite Nat.div_small, Nat.mod_small by done. reflexivity.
  - unfold Demo.run, split_images_to_videos.
    change (Demo.raises ListInputFolder) with (@None py_exception).
    rewrite demo_images.
    change (Demo.raises (Imread (txt "f1.png"))) with (@None py_exception).
    change (Demo.imread (txt "f1.png"))
      with (Some {| Demo.source := txt "f1.png"; Demo.size := (640, 480);
                    Demo.markers := [] |}).
    cbv beta iota zeta.
    destruct (Nat.eqb_spec C 0) as [E0|_]; [lia|].
    change (length _) with 7.
    assert (math_ceil_quotient 7 C = Some 0) as ->.
    { unfold math_ceil_quotient. rewrite EC. reflexivity. }
    reflexivity.
Qed.


(** The row of the second clip: Frame 1 is the place of [f5.png] in the clip,
    not its frame number 5. *)
Lemma split_csv_frames_are_chunk_positions_witness :
  Demo.run 3 = inr (Demo.clips 3) /\
  exists c row,
    Demo.clips 3 !! 1 = Some c /\
    csv_file c = CsvWrite fieldnames [row] true /\
    X row = 7%Z /\ Frame row = 1 /\ Frame row < 3 /\
    video_images c !! Frame row = Some (txt "f5.png").
Proof.
  assert (Demo.run 3 = inr (Demo.clips 3)) as Hrun by (vm_compute; reflexivity).
  split; [exact Hrun|].
  assert (exists c row, Demo.clips 3 !! 1 = Some c /\
                        csv_file c = CsvWrite fieldnames [row] true /\
                        X row = 7%Z /\ Frame row = 1 /\
                        video_images c !! 1 = Some (txt "f5.png"))
    as (c & row & Hc & Hfile & HX & HF & Himg)
    by (do 2 eexists; repeat split; vm_compute; reflexivity).
  exists c, row. split; [exact Hc|]. split; [exact Hfile|].
  split; [exact HX|]. split; [exact HF|].
  destruct (split_csv_frames_are_chunk_positions Demo.imread Demo.shape Demo.resize
              Demo.circle Demo.natsorted Demo.csv_write_ok Demo.raises Demo.input_listing
              Demo.out_folder (txt "output") Demo.csv 3 None (Demo.clips 3) Hrun
              1 c fieldnames [row] true row Hc Hfile) as [Hlt _].
  - apply list_elem_of_here.
  - split; [exact Hlt|]. by rewrite HF.
Defined.


(** [cam2_frame_0042.jpg] is looked up under 42. *)
Lemma frame_number_is_last_digit_run_witness :
  Demo.imread (txt "cam2_frame_0042.jpg")
  = Some {| Demo.source := txt "cam2_frame_0042.jpg"; Demo.size := (640, 480);
            Demo.markers := [] |} /\
  global_frame_num (txt "cam2_frame_0042.jpg") = Some 42.
Proof.
  split; [reflexivity|].
  apply (proj1 (proj2 (frame_number_is_last_digit_run Demo.imread Demo.resize Demo.circle
                  ∅ (640, 480)
                  {| out_clean := []; out_annotated := []; chunk_csv_data := [] |} 0
                  (txt "cam2_frame_0042.jpg") _ eq_refl))
               (txt "cam2_frame_") (txt "0042") (txt ".jpg")).
  - reflexivity.
  - done.
  - repeat constructor.
  - reflexivity.
  - repeat constructor.
Defined.

(** [f5.png] comes after [f4.png], which does not decode: its frame is the
    first of the videos, and its row says Frame 1. *)
Lemma local_index_counts_skipped_images_witness :
  Demo.imread (txt "f5.png")
  = Some {| Demo.source := txt "f5.png"; Demo.size := (640, 480); Demo.markers := [] |} /\
  let st := process_chunk Demo.imread Demo.resize Demo.circle (load_csv_data Demo.csv)
              (640, 480) [txt "f4.png"; txt "f5.png"; txt "f6.PNG"] in
  0 + 1 = 1 /\
  out_clean st !! 0
  = Some {| Demo.source := txt "f5.png"; Demo.size := (640, 480); Demo.markers := [] |}.
Proof.
  split; [reflexivity|].
  destruct (local_index_counts_skipped_images Demo.imread Demo.resize Demo.circle
              (load_csv_data Demo.csv) (640, 480) [txt "f4.png"] [txt "f6.PNG"]
              (txt "f5.png") _ eq_refl) as (Hk & Hclean & _).
  split; [exact Hk | exact Hclean].
Defined.


(** * Further properties *)

(** ** Output indexer: what counts and what does not *)

Section IndexerMore.

Implicit Types (prefix f s a b ds suffix : text) (n idx : nat).

Lemma digit_not_char c d : is_digit c = true -> is_digit d = false -> Ascii.eqb d c = false.
Proof.
  intros Hc Hd. destruct (Ascii.eqb_spec d c) as [->|]; [congruence | done].
Qed.

(** A numeral followed by something that has no [_clean.mp4] in it has
    none either. *)
Lemma contains_clean_digits ds suffix :
  all_digits ds ->
  contains clean_suffix suffix = false ->
  contains clean_suffix (ds ++ suffix) = false.
Proof.
  intros Hds Hs. induction Hds as [|c ds Hc _ IH]; [done|].
  cbn [app contains]. rewrite IH, orb_false_r.
  unfold startswith, clean_suffix.
  change (txt "_clean.mp4") with ("_"%char :: txt "clean.mp4").
  cbn [strip_prefix]. by rewrite (digit_not_char c "_"%char Hc).
Qed.

Lemma contains_clean_tail ds suffix :
  ds <> [] -> all_digits ds ->
  contains clean_suffix suffix = false ->
  contains clean_suffix (txt "_" ++ ds ++ suffix) = false.
Proof.
  intros Hne Hds Hs. change (txt "_") with ["_"%char].
  cbn [app contains].
  rewrite contains_clean_digits, orb_false_r by done.
  unfold startswith, clean_suffix.
  change (txt "_clean.mp4") with ("_"%char :: "c"%char :: txt "lean.mp4").
  destruct Hds as [|c ds Hc _]; [done|].
  cbn [app strip_prefix]. rewrite Ascii.eqb_refl.
  by rewrite (digit_not_char c "c"%char Hc).
Qed.

(** If the pattern occurs in [prefix ++ tail], then [tail] has a
    [_clean.mp4] in it. *)
Lemma occurs_at_tail prefix tail a ds :
  occurs_at prefix (prefix ++ tail) a ds -> contains clean_suffix tail = true.
Proof.
  intros (_ & _ & b & E). apply contains_true.
  assert (prefix ++ tail = (a ++ prefix ++ txt "_" ++ ds) ++ clean_suffix ++ b) as E'.
  { by rewrite E, <- ?app_assoc. }
  apply app_eq_app in E' as [l [[E1 E2]|[E1 E2]]].
  - (* the prefix cannot reach beyond what precedes [_clean.mp4] *)
    apply (f_equal length) in E1. rewrite !length_app in E1. simpl in E1. lia.
  - exists l, b. exact E2.
Qed.

Lemma file_index_no_clean prefix tail :
  contains clean_suffix tail = false -> file_index prefix (prefix ++ tail) = None.
Proof.
  intros Ht. destruct (file_index prefix (prefix ++ tail)) as [n|] eqn:E; [|done].
  apply file_index_counted in E as (_ & a & ds & Hocc & _).
  apply occurs_at_tail in Hocc. congruence.
Qed.

Lemma file_index_annotated prefix idx : file_index prefix (annotated_name prefix idx) = None.
Proof.
  apply file_index_no_clean.
  apply contains_clean_tail; [apply str_nonempty | apply str_digits | reflexivity].
Qed.

Lemma file_index_csv prefix idx : file_index prefix (csv_name prefix idx) = None.
Proof.
  apply file_index_no_clean.
  apply contains_clean_tail; [apply str_nonempty | apply str_digits | reflexivity].
Qed.

Lemma file_index_clean prefix idx : file_index prefix (clean_name prefix idx) = Some idx.
Proof. apply file_index_counted, exact_counted, clean_name_exact. Qed.

Lemma max_list_le (l : list nat) k : (forall i, i ∈ l -> i <= k) -> max_list l <= k.
Proof.
  induction l as [|i l IH]; intros H; simpl; [lia|].
  apply Nat.max_lub; [apply H; left | apply IH; intros; apply H; by right].
Qed.

End IndexerMore.

(** X1. The next index does not depend on the order in which the folder
    lists its names. *)
Theorem get_next_video_index_permutation (prefix : text) (listing listing' : list text) :
  listing ≡ₚ listing' ->
  get_next_video_index prefix (Some listing) = get_next_video_index prefix (Some listing').
Proof.
  intros Hp. rewrite !get_next_video_index_eq. simpl. by rewrite Hp.
Qed.

Lemma get_next_video_index_permutation_witness :
  get_next_video_index (txt "output")
    (Some [txt "output_2_clean.mp4"; txt "notes.txt"; txt "output_10_clean.mp4"])
  = get_next_video_index (txt "output")
    (Some [txt "output_10_clean.mp4"; txt "output_2_clean.mp4"; txt "notes.txt"]).
Proof.
  apply get_next_video_index_permutation. symmetry.
  apply (Permutation_cons_append
           [txt "output_2_clean.mp4"; txt "notes.txt"] (txt "output_10_clean.mp4")).
Defined.

(** X2. More names in the folder never lower the next index. *)
Theorem get_next_video_index_monotone (prefix : text) (listing listing' : list text) :
  listing ⊆ listing' ->
  get_next_video_index prefix (Some listing) <= get_next_video_index prefix (Some listing').
Proof.
  intros Hsub. rewrite !get_next_video_index_eq. simpl.
  apply Nat.add_le_mono_r, max_list_le. intros i (f & Hf & Hi)%list_elem_of_omap.
  apply max_list_elem_of_le, list_elem_of_omap. exists f. split; [by apply Hsub | done].
Qed.

Lemma get_next_video_index_monotone_witness :
  get_next_video_index (txt "output") (Some [txt "output_2_clean.mp4"])
  <= get_next_video_index (txt "output")
       (Some [txt "output_1_clean.mp4"; txt "output_2_clean.mp4"]).
Proof.
  apply get_next_video_index_monotone.
  intros f Hf. by right.
Defined.

(** X3. A name that does not start with the prefix is never counted, even
    when [<prefix>_<N>_clean.mp4] occurs in it: taking it out of the folder
    changes nothing. *)
Theorem get_next_video_index_ignores_other_prefix (prefix f : text) (l1 l2 : list text) :
  startswith f prefix = false ->
  get_next_video_index prefix (Some (l1 ++ f :: l2))
  = get_next_video_index prefix (Some (l1 ++ l2)).
Proof.
  intros Hf. rewrite !get_next_video_index_eq. simpl.
  rewrite !omap_app. simpl. unfold file_index at 2. by rewrite Hf.
Qed.

Lemma get_next_video_index_ignores_other_prefix_witness :
  get_next_video_index (txt "output")
    (Some ([txt "output_1_clean.mp4"] ++ txt "old_output_7_clean.mp4" :: []))
  = get_next_video_index (txt "output") (Some ([txt "output_1_clean.mp4"] ++ [])).
Proof.
  apply get_next_video_index_ignores_other_prefix. reflexivity.
Defined.

(** X4. The annotated videos and the annotation files of earlier runs are
    never counted: a folder that holds only such names gives index 1, as an
    empty folder does. *)
Theorem get_next_video_index_only_clean_counts (prefix : text) (listing : list text) :
  (forall f, f ∈ listing ->
     exists k, f = annotated_name prefix k \/ f = csv_name prefix k) ->
  get_next_video_index prefix (Some listing) = 1.
Proof.
  intros H. rewrite get_next_video_index_eq. simpl.
  assert (omap (file_index prefix) listing = []) as ->; [|done].
  induction listing as [|f listing IH]; [done|].
  simpl. destruct (H f ltac:(left)) as [k [-> | ->]].
  - rewrite file_index_annotated. apply IH. intros; apply H; by right.
  - rewrite file_index_csv. apply IH. intros; apply H; by right.
Qed.

Lemma get_next_video_index_only_clean_counts_witness :
  get_next_video_index (txt "output")
    (Some [txt "output_1_annotated.mp4"; txt "output_1.csv"; txt "output_2_annotated.mp4"])
  = 1.
Proof.
  apply get_next_video_index_only_clean_counts.
  intros f Hf. apply list_elem_of_In in Hf. simpl in Hf.
  destruct Hf as [<-|[<-|[<-|[]]]].
  - exists 1. by left.
  - exists 1. by right.
  - exists 2. by left.
Defined.

(** ** Chunker / encoder: more on the run *)

Section RunMore.

Context {Image : Type}.
Variable imread : text -> option Image.
Variable shape : Image -> nat * nat.
Variable resize : Image -> nat * nat -> Image.
Variable circle : Image -> Z -> Z -> Image.
Variable natsorted : list text -> list text.
Variable csv_write_ok : text -> bool.
Variable raises : @external_call Image -> option py_exception.

Local Abbreviation run :=
  (split_images_to_videos imread shape resize circle natsorted csv_write_ok raises).
Local Abbreviation clip_of := (make_clip imread resize circle csv_write_ok).
Local Abbreviation images_of := (list_images natsorted).
Local Abbreviation chunk := (process_chunk imread resize circle).

Lemma max_list_seq s n : 0 < n -> max_list (seq s n) = s + n - 1.
Proof.
  revert s. induction n as [|n IH]; intros s Hn; [lia|]. simpl.
  destruct n as [|n]; [simpl; lia|]. rewrite IH by lia. lia.
Qed.

Lemma max_list_append (l1 l2 : list nat) :
  max_list (l1 ++ l2) = Nat.max (max_list l1) (max_list l2).
Proof. induction l1 as [|i l1 IH]; simpl; [done|]. rewrite IH. lia. Qed.

Lemma omap_clean_paths prefix points_map frame_size images C s l :
  omap (file_index prefix)
       (map clean_path (map (clip_of points_map frame_size images prefix C s) l))
  = map (Nat.add s) l.
Proof.
  induction l as [|i l IH]; [done|].
  cbn [map omap list_omap]. cbn [clean_path make_clip].
  rewrite file_index_clean. f_equal. exact IH.
Qed.

Lemma omap_others prefix (others : list text) :
  (forall f, f ∈ others -> exists k, f = annotated_name prefix k \/ f = csv_name prefix k) ->
  omap (file_index prefix) others = [].
Proof.
  induction others as [|f others IH]; intros H; [done|].
  simpl. destruct (H f ltac:(left)) as [k [-> | ->]].
  - rewrite file_index_annotated. apply IH. intros; apply H; by right.
  - rewrite file_index_csv. apply IH. intros; apply H; by right.
Qed.

(** X5. A second run against the folder a first run leaves, with its clean
    videos and any of its annotated videos and annotation files, starts
    right after the last index of the first run. *)
Theorem rerun_starts_after_last_index
    input_listing out_folder prefix csv C fs clips (others : list text) :
  run input_listing out_folder prefix csv C fs = inr clips ->
  (forall f, f ∈ others -> exists k, f = annotated_name prefix k \/ f = csv_name prefix k) ->
  get_next_video_index prefix
    (Some (listdir_makedirs out_folder ++ map clean_path clips ++ others))
  = get_next_video_index prefix out_folder + length clips.
Proof.
  intros (first & rest & ff & n & E & Hff & HC & Hn & ->)%run_inr Hothers.
  rewrite !get_next_video_index_eq.
  set (old := listdir_makedirs out_folder).
  cbn [listdir_makedirs default from_option id].
  rewrite !omap_app, omap_clean_paths, (omap_others _ _ Hothers), app_nil_r.
  rewrite max_list_append, length_map, length_seq, fmap_add_seq.
  destruct n as [|n]; [simpl; lia|].
  rewrite max_list_seq by lia. lia.
Qed.

Lemma output_name_inj prefix a b (s1 s2 : text) :
  no_digit_head s1 -> no_digit_head s2 ->
  prefix ++ txt "_" ++ str a ++ s1 = prefix ++ txt "_" ++ str b ++ s2 ->
  a = b /\ s1 = s2.
Proof.
  intros H1 H2 E. do 2 apply app_inv_head in E.
  pose proof (span_digits_app (str a) s1 (str_digits a) H1) as Ea.
  pose proof (span_digits_app (str b) s2 (str_digits b) H2) as Eb.
  rewrite E, Eb in Ea. injection Ea as Ea ->. split; [|done].
  by rewrite <- (int_digits_str a), <- (int_digits_str b), Ea.
Qed.

(** X6. The output paths of a run are pairwise distinct: no video and no
    annotation file of a clip is written over by another output of the same
    run. *)
Theorem split_output_paths_distinct input_listing out_folder prefix csv C fs clips :
  run input_listing out_folder prefix csv C fs = inr clips ->
  forall i j ci cj, clips !! i = Some ci -> clips !! j = Some cj ->
    (clean_path ci = clean_path cj -> i = j) /\
    (annotated_path ci = annotated_path cj -> i = j) /\
    (video_csv_path ci = video_csv_path cj -> i = j) /\
    clean_path ci <> annotated_path cj /\
    clean_path ci <> video_csv_path cj /\
    annotated_path ci <> video_csv_path cj.
Proof.
  intros Hrun i j ci cj Hi Hj.
  destruct (run_clip _ _ _ _ _ _ _ _ _ _ _ _ _ _ _ _ Hrun Hi) as (fsi & _ & _ & _ & _ & ->).
  destruct (run_clip _ _ _ _ _ _ _ _ _ _ _ _ _ _ _ _ Hrun Hj) as (fsj & _ & _ & _ & _ & ->).
  cbn [clean_path annotated_path video_csv_path make_clip].
  unfold clean_name, annotated_name, csv_name.
  repeat split.
  - intros [H _]%output_name_inj; [lia | done..].
  - intros [H _]%output_name_inj; [lia | done..].
  - intros [H _]%output_name_inj; [lia | done..].
  - by intros [_ H]%output_name_inj.
  - by intros [_ H]%output_name_inj.
  - by intros [_ H]%output_name_inj.
Qed.

(** X7. Within a run one frame size serves all clips: the size given, or else
    the size of the first image. The clean frames of a clip are the decoded
    images of its chunk, in order, resized and nothing else; the annotated
    frames are the same frames with the markers of their own points. *)
Theorem split_frames_uniform input_listing out_folder prefix csv C fs clips :
  run input_listing out_folder prefix csv C fs = inr clips ->
  exists frame_size,
    (forall given, fs = Some given -> frame_size = given) /\
    (fs = None -> exists first raw,
        head (images_of input_listing) = Some first /\ imread first = Some raw /\
        frame_size = shape raw) /\
    forall c, c ∈ clips ->
      clean_frames c = omap (clean_frame imread resize frame_size) (video_images c) /\
      annotated_frames c
      = omap (annotated_frame imread resize circle (load_csv_data csv) frame_size)
             (video_images c).
Proof.
  intros (first & rest & ff & n & E & Hff & HC & Hn & ->)%run_inr.
  exists (default (shape ff) fs). split; [by intros given ->|]. split.
  - intros ->. exists first, ff. by rewrite E.
  - intros c (i & -> & _)%list_elem_of_fmap.
    cbn [clean_frames annotated_frames video_images make_clip].
    by rewrite chunk_clean, chunk_annotated.
Qed.

(** X8. No annotation of a frame that is written is lost: for the image at
    position [j] of a chunk, if it decodes, every point of its frame number
    has its row, with Frame [j], among the rows collected for the chunk. *)
Theorem split_rows_complete input_listing out_folder prefix csv C fs clips :
  run input_listing out_folder prefix csv C fs = inr clips ->
  forall c j img p,
    c ∈ clips -> video_images c !! j = Some img ->
    decodes imread img = true ->
    p ∈ image_points (load_csv_data csv) img ->
    make_row j p ∈ csv_rows c.
Proof.
  intros Hrun c j img p [i Hi]%list_elem_of_lookup Hj Hdec Hp.
  destruct (run_clip _ _ _ _ _ _ _ _ _ _ _ _ _ _ _ _ Hrun Hi) as (fsz & _ & _ & _ & _ & ->).
  cbn [csv_rows video_images make_clip] in *. rewrite chunk_rows.
  apply list_elem_of_In, in_concat.
  exists (frame_rows imread (load_csv_data csv) (j, img)). split.
  - apply in_map, list_elem_of_In. by apply (enumerate_from_elem 0).
  - unfold frame_rows, decodes in *. simpl.
    destruct (imread img); [|done]. by apply list_elem_of_In, list_elem_of_fmap_2.
Qed.

Lemma rows_sorted_from points_map k (imgs : list text) :
  StronglySorted (fun r1 r2 => Frame r1 <= Frame r2)
    (concat (map (frame_rows imread points_map) (enumerate_from k imgs))) /\
  Forall (fun r => k <= Frame r)
    (concat (map (frame_rows imread points_map) (enumerate_from k imgs))).
Proof.
  revert k. induction imgs as [|img imgs IH]; intros k; simpl.
  - split; constructor.
  - destruct (IH (S k)) as [Hsorted Hge].
    assert (Forall (fun r => Frame r = k) (frame_rows imread points_map (k, img))) as Hk.
    { unfold frame_rows. simpl. destruct (imread img); [|constructor].
      apply Forall_forall. intros r Hr%list_elem_of_In.
      by apply in_map_iff in Hr as (p & <- & _). }
    split.
    + apply StronglySorted_app_2; [| |done].
      * intros r1 r2 H1 H2.
        rewrite Forall_forall in Hk, Hge.
        specialize (Hk _ H1). specialize (Hge _ H2). lia.
      * induction Hk as [|r rs Hr Hrs IHrs]; constructor; [done|].
        eapply Forall_impl; [exact Hrs|]. simpl. intros; lia.
    + apply Forall_app. split.
      * eapply Forall_impl; [exact Hk|]. simpl. intros; lia.
      * eapply Forall_impl; [exact Hge|]. simpl. intros; lia.
Qed.

(** X9. The rows of a chunk's annotation file are in the order of the
    frames: the Frame column never decreases from one row to the next. *)
Theorem split_rows_sorted_by_frame input_listing out_folder prefix csv C fs clips :
  run input_listing out_folder prefix csv C fs = inr clips ->
  forall c, c ∈ clips ->
    StronglySorted (fun r1 r2 => Frame r1 <= Frame r2) (csv_rows c).
Proof.
  intros Hrun c [i Hi]%list_elem_of_lookup.
  destruct (run_clip _ _ _ _ _ _ _ _ _ _ _ _ _ _ _ _ Hrun Hi) as (fsz & _ & _ & _ & _ & ->).
  cbn [csv_rows make_clip]. rewrite chunk_rows. apply rows_sorted_from.
Qed.

(** X10. When the annotation file is missing or cannot be read, the run goes
    on with an empty table: every annotated video is frame for frame the clean
    one, and no annotation file is written. *)
Theorem split_without_annotations input_listing out_folder prefix csv C fs clips :
  csv = CsvMissing \/ csv = CsvUnreadable ->
  run input_listing out_folder prefix csv C fs = inr clips ->
  forall c, c ∈ clips ->
    annotated_frames c = clean_frames c /\ csv_rows c = [] /\ csv_file c = CsvSkipped.
Proof.
  intros Hcsv Hrun c [i Hi]%list_elem_of_lookup.
  destruct (run_clip _ _ _ _ _ _ _ _ _ _ _ _ _ _ _ _ Hrun Hi) as (fsz & _ & _ & _ & _ & ->).
  assert (load_csv_data csv = ∅) as -> by (by destruct Hcsv as [-> | ->]).
  cbn [annotated_frames clean_frames csv_rows csv_file make_clip].
  assert (forall img, image_points ∅ img = []) as Hpts.
  { intros img. unfold image_points. by destruct (global_frame_num img). }
  assert (forall imgs k, concat (map (frame_rows imread ∅) (enumerate_from k imgs)) = []) as Hrows.
  { induction imgs as [|img imgs IH]; intros k; [done|]. simpl.
    rewrite IH, app_nil_r. unfold frame_rows. simpl.
    destruct (imread img); [|done]. by rewrite Hpts. }
  rewrite chunk_rows, chunk_clean, chunk_annotated. unfold enumerate.
  rewrite Hrows. split; [|done].
  induction (slice _ _ _) as [|img imgs IH]; [done|]. simpl.
  unfold annotated_frame at 1, clean_frame at 1. rewrite Hpts.
  destruct (imread img); simpl; [f_equal|]; exact IH.
Qed.

(** X11. When [natsorted] returns a permutation of its argument, as a sort
    does, and with fewer than 2^53 images and a chunk size below 2^1075, the
    chunks of a run hold the names of the input folder that end in [.jpg],
    [.jpeg] or [.png], whatever the case, and no other name, each as many
    times as the folder lists it. *)
Theorem split_chunks_cover_images input_listing out_folder prefix csv C fs clips :
  (forall l, natsorted l ≡ₚ l) ->
  (Z.of_nat (length (images_of input_listing)) < 2 ^ 53)%Z ->
  (Z.of_nat C < 2 ^ 1075)%Z ->
  run input_listing out_folder prefix csv C fs = inr clips ->
  concat (video_images <$> clips) ≡ₚ List.filter is_image_name input_listing.
Proof.
  intros Hsort HM HC' (first & rest & ff & n & E & Hff & HC & Hn & ->)%run_inr.
  rewrite (math_ceil_quotient_exact _ C HC HM HC') in Hn. injection Hn as <-.
  rewrite <- list_fmap_compose.
  set (images := images_of input_listing).
  change (concat (map (fun i => slice images (i * C) (Nat.min (i * C + C) (length images)))
                      (seq 0 (math_ceil_div (length images) C)))
          ≡ₚ List.filter is_image_name input_listing).
  rewrite concat_chunks, take_ge.
  - apply Hsort.
  - pose proof (math_ceil_div_bounds (length images) C HC). lia.
Qed.

End RunMore.

(** ** Annotation loader: what the table holds *)

Section LoaderMore.

Implicit Types (row : row_dict) (rows : list row_dict) (m : points_table).

Lemma get_points_append m fr p f :
  get_points (append_point m fr p) f
  = if decide (fr = f) then get_points m f ++ [p] else get_points m f.
Proof.
  unfold get_points, append_point. destruct (decide (fr = f)) as [->|Hne].
  - by rewrite lookup_insert_eq.
  - by rewrite lookup_insert_ne.
Qed.

Lemma load_rows_points rows m f :
  get_points (load_rows rows m) f
  = get_points m f ++ omap (point_for f) (rows_read rows).
Proof.
  revert m. induction rows as [|row rows IH]; intros m; simpl.
  - by rewrite app_nil_r.
  - unfold stops_load, point_for.
    destruct (parse_row row) as [e|[fr p]] eqn:E.
    + destruct e; simpl; rewrite ?E, ?app_nil_r; simpl; by rewrite ?IH.
    + simpl. rewrite E. simpl. rewrite IH, get_points_append.
      destruct (decide (fr = f)); simpl; by rewrite <- ?app_assoc.
Qed.

Lemma load_rows_entries_nonempty rows m :
  (forall f l, m !! f = Some l -> l <> []) ->
  forall f l, load_rows rows m !! f = Some l -> l <> [].
Proof.
  revert m. induction rows as [|row rows IH]; intros m Hm; simpl; [done|].
  destruct (parse_row row) as [e|[fr p]].
  - destruct e; by (apply IH || apply Hm).
  - apply IH. intros f l. unfold append_point.
    destruct (decide (fr = f)) as [->|Hne].
    + rewrite lookup_insert_eq. intros [= <-]. by destruct (default [] (m !! f)).
    + rewrite lookup_insert_ne by done. apply Hm.
Qed.

Lemma load_rows_no_point rows m :
  Forall (fun row => forall fp, parse_row row <> inr fp) rows ->
  load_rows rows m = m.
Proof.
  intros H. induction H as [|row rows Hrow _ IH]; simpl; [done|].
  destruct (parse_row row) as [e|fp] eqn:E.
  - by destruct e.
  - by destruct (Hrow fp).
Qed.

Lemma fill_none_lookup (ks : list text) (d : row_dict) key :
  key ∉ ks -> foldl (fun d k => <[k := None]> d) d ks !! key = d !! key.
Proof.
  revert d. induction ks as [|k ks IH]; intros d Hk; simpl; [done|].
  apply not_elem_of_cons in Hk as [Hne Hk].
  rewrite IH by done. by rewrite lookup_insert_ne.
Qed.

(** The row of a record has no entry for a column the header does not name. *)
Lemma zip_fields_lookup_absent (header record : list text) (d : row_dict) key :
  key ∉ header -> zip_fields header record d !! key = d !! key.
Proof.
  revert record d. induction header as [|k ks IH]; intros record d Hk.
  - by destruct record.
  - destruct record as [|v vs]; simpl.
    + apply (fill_none_lookup (k :: ks)); done.
    + apply not_elem_of_cons in Hk as [Hne Hk].
      rewrite IH by done. by rewrite lookup_insert_ne.
Qed.

Lemma parse_row_needs row key fp :
  key = txt "Frame" \/ key = txt "X" \/ key = txt "Y" ->
  row !! key = None -> parse_row row <> inr fp.
Proof.
  intros Hkey Hrow. destruct fp as [fr p].
  intros (HF & HX & HY & _)%parse_row_inr.
  unfold int_field in *.
  destruct Hkey as [-> | [-> | ->]]; by rewrite Hrow in *.
Qed.

End LoaderMore.

(** X12. The points the table holds for a frame are those of the rows read
    for that frame, in the order of the file; the rows read are the rows up
    to the end of the file, or up to the first row that ends the load. *)
Theorem load_csv_data_points (records : list (list text)) (f : Z) :
  get_points (load_csv_data (CsvRecords records)) f
  = omap (point_for f) (rows_read (dict_reader records)).
Proof.
  unfold load_csv_data. rewrite load_rows_points.
  unfold get_points at 1. by rewrite lookup_empty.
Qed.

(** X13. A frame number is a key of the table only when at least one point
    was loaded for it: looking a frame up never creates an entry, and no
    entry is an empty list. *)
Theorem load_csv_data_entries_nonempty (csv : csv_source) (f : Z) (l : list Point) :
  load_csv_data csv !! f = Some l -> l <> [].
Proof.
  destruct csv as [| |records]; simpl; try by rewrite lookup_empty.
  apply load_rows_entries_nonempty. intros f' l'. by rewrite lookup_empty.
Qed.

Lemma load_csv_data_entries_nonempty_witness :
  load_csv_data Demo.csv !! 5%Z
  = Some [ {| name := Some (txt "Ball"); x := 7; y := 8 |} ] /\
  [ {| name := Some (txt "Ball"); x := 7; y := 8 |} ] <> [].
Proof.
  assert (load_csv_data Demo.csv !! 5%Z
          = Some [ {| name := Some (txt "Ball"); x := 7; y := 8 |} ]) as H
    by (vm_compute; reflexivity).
  split; [exact H|].
  exact (load_csv_data_entries_nonempty Demo.csv 5 _ H).
Defined.

(** X14. When the header of the annotation file lacks one of the columns
    [Frame], [X], [Y], no row gives a point: the table is empty, whatever the
    records are. *)
Theorem load_csv_data_header_lacks_column (header : list text) (records : list (list text)) :
  txt "Frame" ∉ header \/ txt "X" ∉ header \/ txt "Y" ∉ header ->
  load_csv_data (CsvRecords (header :: records)) = ∅.
Proof.
  intros Hlack. unfold load_csv_data, dict_reader.
  apply load_rows_no_point, Forall_forall.
  intros row (record & <- & _)%list_elem_of_In%in_map_iff fp. cbv beta.
  destruct Hlack as [H | [H | H]].
  - apply (parse_row_needs _ (txt "Frame")); [by left|].
    by rewrite zip_fields_lookup_absent, lookup_empty.
  - apply (parse_row_needs _ (txt "X")); [by right; left|].
    by rewrite zip_fields_lookup_absent, lookup_empty.
  - apply (parse_row_needs _ (txt "Y")); [by right; right|].
    by rewrite zip_fields_lookup_absent, lookup_empty.
Qed.

Lemma load_csv_data_header_lacks_column_witness :
  load_csv_data (CsvRecords [[txt "frame"; txt "X"; txt "Y"];
                             [txt "1"; txt "2"; txt "3"]]) = ∅.
Proof.
  apply load_csv_data_header_lacks_column. left.
  intros H. apply list_elem_of_In in H. simpl in H.
  destruct H as [H|[H|[H|[]]]]; discriminate H.
Defined.

(** ** Image names, numerals and the entry point *)

Lemma endswith_true (s p : text) : endswith s p = true <-> exists r, s = r ++ p.
Proof.
  unfold endswith. rewrite startswith_true. split.
  - intros [r E]. exists (rev r).
    by rewrite <- (rev_involutive s), E, rev_app_distr, rev_involutive.
  - intros [r ->]. exists (rev r). by rewrite rev_app_distr.
Qed.

Lemma lower_endswith (img e : text) :
  endswith (lower img) e = true <-> exists stem ext, img = stem ++ ext /\ lower ext = e.
Proof.
  rewrite endswith_true. unfold lower. split.
  - intros [r E]. apply map_eq_app in E as (stem & ext & -> & _ & Hext). eauto.
  - intros (stem & ext & -> & <-). exists (map lower_char stem). by rewrite map_app.
Qed.

(** X15. A name of the input folder is taken for an image exactly when it
    ends in [.jpg], [.jpeg] or [.png], in any mixture of upper and lower
    case. *)
Theorem is_image_name_spec (img : text) :
  is_image_name img = true <->
  exists stem ext, img = stem ++ ext /\
    (lower ext = txt ".jpg" \/ lower ext = txt ".jpeg" \/ lower ext = txt ".png").
Proof.
  unfold is_image_name. cbv zeta. rewrite !orb_true_iff, !lower_endswith. split.
  - intros [[(stem & ext & E & H)|(stem & ext & E & H)]|(stem & ext & E & H)];
      exists stem, ext; auto.
  - intros (stem & ext & E & [H|[H|H]]); [left; left | left; right | right]; eauto.
Qed.

Lemma is_digit_not_space (c : ascii) : is_digit c = true -> is_space c = false.
Proof.
  unfold is_digit, is_space. cbv zeta.
  destruct (Nat.leb_spec 48 (nat_of_ascii c)), (Nat.leb_spec (nat_of_ascii c) 57); try done.
  intros _.
  destruct (Nat.leb_spec 9 (nat_of_ascii c)), (Nat.leb_spec (nat_of_ascii c) 13),
    (Nat.eqb_spec (nat_of_ascii c) 32); simpl; try done; lia.
Qed.

Lemma lstrip_digits (ds : text) : all_digits ds -> lstrip ds = ds.
Proof.
  intros [|c r Hc _]; [done|]. simpl. by rewrite (is_digit_not_space c Hc).
Qed.

Lemma strip_digits (ds : text) : all_digits ds -> strip ds = ds.
Proof.
  intros H. unfold strip. rewrite (lstrip_digits ds H), lstrip_digits.
  - apply rev_involutive.
  - by apply Forall_rev.
Qed.

Lemma parse_digits_run (ds : text) (acc : nat) (seen : bool) :
  all_digits ds -> ds <> [] \/ seen = true ->
  parse_digits acc seen ds
  = Some (fold_left (fun a c => 10 * a + digit_value c) ds acc).
Proof.
  intros H. revert acc seen. induction H as [|c ds Hc _ IH]; intros acc seen Hs; simpl.
  - destruct Hs as [?| ->]; done.
  - rewrite Hc. apply IH. by right.
Qed.

Lemma py_int_unsigned (s r : text) (c : ascii) :
  strip s = c :: r -> is_digit c = true ->
  py_int s = Z.of_nat <$> parse_digits 0 false (c :: r).
Proof.
  intros E Hc. unfold py_int. rewrite E.
  destruct c as [[] [] [] [] [] [] [] []]; try reflexivity; discriminate Hc.
Qed.

(** X16. On a run of digits the three uses of [int] agree: what the loader
    reads from a CSV field holding the digits is the number the encoder reads
    from an image name whose last run of digits they are, leading zeros
    included. *)
Theorem frame_number_matches_csv_field (a ds b : text) :
  ds <> [] -> all_digits ds -> no_digit_last a -> no_digits b ->
  py_int ds = Some (Z.of_nat (int_digits ds)) /\
  Z.of_nat <$> global_frame_num (a ++ ds ++ b) = py_int ds.
Proof.
  intros Hne Hds Ha Hb.
  assert (py_int ds = Some (Z.of_nat (int_digits ds))) as E.
  { destruct ds as [|c r] eqn:Eds; [done|]. rewrite <- Eds in *.
    rewrite (py_int_unsigned ds r c).
    - rewrite <- Eds, parse_digits_run by auto. done.
    - by rewrite strip_digits.
    - rewrite Eds in Hds. by inversion Hds. }
  split; [done|]. by rewrite E, global_frame_num_last_run.
Qed.

Lemma frame_number_matches_csv_field_witness :
  py_int (txt "0042") = Some 42%Z /\
  Z.of_nat <$> global_frame_num (txt "render_frame_0042.jpg") = py_int (txt "0042").
Proof.
  apply (frame_number_matches_csv_field (txt "render_frame_") (txt "0042") (txt ".jpg")).
  - done.
  - repeat constructor.
  - reflexivity.
  - repeat constructor.
Defined.

Section MainFacts.

Context {Image : Type}.
Variable imread : text -> option Image.
Variable shape : Image -> nat * nat.
Variable resize : Image -> nat * nat -> Image.
Variable circle : Image -> Z -> Z -> Image.
Variable natsorted : list text -> list text.
Variable csv_write_ok : text -> bool.
Variable raises : @external_call Image -> option py_exception.

Local Abbreviation script :=
  (main imread shape resize circle natsorted csv_write_ok raises).

(** X17. When no call to the operating system or to OpenCV raises and the
    input folder holds fewer than 2^53 images, the script as it is started,
    with 120 frames per video, aborts in exactly two cases, no image in the
    input folder or a first image that does not decode, whether or not the
    annotation file is there and readable; otherwise it returns
    [ceil(M / 120)] clips of at most 120 images, sized after the first
    image. *)
Theorem main_aborts_iff (input_listing : list text) (out_folder : option (list text))
    (csv_records : option (list (list text))) :
  let images := list_images natsorted input_listing in
  (forall call, raises call = None) ->
  (Z.of_nat (length images) < 2 ^ 53)%Z ->
  (forall e, script input_listing out_folder csv_records = inl e <->
     (images = [] /\ e = ValueError) \/
     (exists first, head images = Some first /\ imread first = None /\ e = RuntimeError)) /\
  (forall clips, script input_listing out_folder csv_records = inr clips ->
     length clips = math_ceil_div (length images) 120 /\
     (forall c, c ∈ clips -> length (video_images c) <= 120) /\
     exists first raw, head images = Some first /\ imread first = Some raw /\
       forall c, c ∈ clips ->
         clean_frames c = omap (clean_frame imread resize (shape raw)) (video_images c)).
Proof.
  intros images Hquiet HM. split.
  - intros e. unfold main, split_images_to_videos. fold images.
    rewrite Hquiet.
    destruct images as [|first rest] eqn:E; simpl.
    { split; [intros [= <-]; by left|]. by intros [[_ ->]|(f & ? & _)]. }
    rewrite Hquiet.
    destruct (imread first) as [raw|] eqn:Hraw.
    + rewrite (math_ceil_quotient_exact (S (length rest)) 120);
        [|lia | exact HM | reflexivity].
      rewrite Hquiet.
      assert (forall calls, first_raise raises calls = None) as Hcalls.
      { induction calls as [|call calls IH]; simpl; [done|]. by rewrite Hquiet. }
      rewrite Hcalls.
      split; [done|]. intros [[? _]|(f & [= <-] & Hf & _)]; [done | congruence].
    + split.
      * intros [= <-]. right. by exists first.
      * by intros [[? _]|(f & _ & _ & ->)].
  - intros clips (first & rest & raw & n & E & Hraw & _ & Hn & ->)%run_inr.
    fold images in E, Hn |- *.
    rewrite (math_ceil_quotient_exact (length images) 120) in Hn;
      [|lia | exact HM | reflexivity].
    injection Hn as <-.
    split; [by rewrite length_map, length_seq|]. split.
    + intros c (i & -> & _)%list_elem_of_fmap. cbn [video_images make_clip].
      rewrite length_slice. lia.
    + exists first, raw. rewrite E. split; [done|]. split; [done|].
      intros c (i & -> & _)%list_elem_of_fmap. cbn [clean_frames video_images make_clip].
      by rewrite chunk_clean.
Qed.

End MainFacts.

(** ** The small run, again *)

Lemma is_image_name_spec_witness : is_image_name (txt "Render_0042.JPeG") = true.
Proof.
  apply is_image_name_spec. exists (txt "Render_0042"), (txt ".JPeG").
  split; [reflexivity|]. right; left. reflexivity.
Defined.

(** The run in chunks of three leaves clips 3, 4 and 5: the next run starts
    at 6. *)
Lemma rerun_starts_after_last_index_witness :
  Demo.run 3 = inr (Demo.clips 3) /\
  get_next_video_index (txt "output")
    (Some (listdir_makedirs Demo.out_folder ++ map clean_path (Demo.clips 3) ++
           [annotated_name (txt "output") 3; csv_name (txt "output") 3]))
  = 3 + 3.
Proof.
  assert (Demo.run 3 = inr (Demo.clips 3)) as Hrun by (vm_compute; reflexivity).
  split; [exact Hrun|].
  apply (rerun_starts_after_last_index Demo.imread Demo.shape Demo.resize Demo.circle
           Demo.natsorted Demo.csv_write_ok Demo.raises Demo.input_listing Demo.out_folder
           (txt "output") Demo.csv 3 None (Demo.clips 3) _ Hrun).
  intros f Hf. apply list_elem_of_In in Hf. simpl in Hf.
  destruct Hf as [<-|[<-|[]]]; exists 3; [by left | by right].
Defined.

Lemma split_output_paths_distinct_witness :
  Demo.run 3 = inr (Demo.clips 3) /\
  exists ci cj, Demo.clips 3 !! 0 = Some ci /\ Demo.clips 3 !! 1 = Some cj /\
    clean_path ci <> annotated_path cj /\ annotated_path ci <> video_csv_path cj.
Proof.
  assert (Demo.run 3 = inr (Demo.clips 3)) as Hrun by (vm_compute; reflexivity).
  split; [exact Hrun|].
  assert (exists c, Demo.clips 3 !! 0 = Some c) as [ci Hi]
    by (eexists; vm_compute; reflexivity).
  assert (exists c, Demo.clips 3 !! 1 = Some c) as [cj Hj]
    by (eexists; vm_compute; reflexivity).
  exists ci, cj. split; [exact Hi|]. split; [exact Hj|].
  destruct (split_output_paths_distinct Demo.imread Demo.shape Demo.resize Demo.circle
              Demo.natsorted Demo.csv_write_ok Demo.raises Demo.input_listing Demo.out_folder
              (txt "output") Demo.csv 3 None (Demo.clips 3) Hrun 0 1 ci cj Hi Hj)
    as (_ & _ & _ & H1 & _ & H2).
  split; [exact H1 | exact H2].
Defined.

Lemma split_frames_uniform_witness :
  Demo.run 3 = inr (Demo.clips 3) /\
  exists frame_size c,
    frame_size = (640, 480) /\ Demo.clips 3 !! 1 = Some c /\
    clean_frames c = omap (clean_frame Demo.imread Demo.resize frame_size) (video_images c).
Proof.
  assert (Demo.run 3 = inr (Demo.clips 3)) as Hrun by (vm_compute; reflexivity).
  split; [exact Hrun|].
  destruct (split_frames_uniform Demo.imread Demo.shape Demo.resize Demo.circle
              Demo.natsorted Demo.csv_write_ok Demo.raises Demo.input_listing Demo.out_folder
              (txt "output") Demo.csv 3 None (Demo.clips 3) Hrun)
    as (frame_size & _ & Hsize & Hclips).
  assert (exists c, Demo.clips 3 !! 1 = Some c) as [c Hc]
    by (eexists; vm_compute; reflexivity).
  exists frame_size, c. split.
  - destruct (Hsize eq_refl) as (first & raw & Hfirst & Hraw & ->).
    injection Hfirst as <-. by injection Hraw as <-.
  - split; [exact Hc|]. apply Hclips, list_elem_of_lookup. by exists 1.
Defined.

Lemma split_rows_complete_witness :
  Demo.run 3 = inr (Demo.clips 3) /\
  exists c, Demo.clips 3 !! 1 = Some c /\
    video_images c !! 1 = Some (txt "f5.png") /\
    {| Frame := 1; ObjectName := Some (txt "Ball"); X := 7; Y := 8 |} ∈ csv_rows c.
Proof.
  assert (Demo.run 3 = inr (Demo.clips 3)) as Hrun by (vm_compute; reflexivity).
  split; [exact Hrun|].
  assert (exists c, Demo.clips 3 !! 1 = Some c /\
                    video_images c !! 1 = Some (txt "f5.png")) as (c & Hc & Himg)
    by (eexists; split; vm_compute; reflexivity).
  exists c. split; [exact Hc|]. split; [exact Himg|].
  apply (split_rows_complete Demo.imread Demo.shape Demo.resize Demo.circle
           Demo.natsorted Demo.csv_write_ok Demo.raises Demo.input_listing Demo.out_folder
           (txt "output") Demo.csv 3 None (Demo.clips 3) Hrun c 1 (txt "f5.png")
           {| name := Some (txt "Ball"); x := 7; y := 8 |}).
  - apply list_elem_of_lookup. by exists 1.
  - exact Himg.
  - reflexivity.
  - assert (image_points (load_csv_data Demo.csv) (txt "f5.png")
            = [ {| name := Some (txt "Ball"); x := 7; y := 8 |} ]) as ->
      by (vm_compute; reflexivity).
    apply list_elem_of_here.
Defined.

Lemma split_rows_sorted_by_frame_witness :
  Demo.run 7 = inr (Demo.clips 7) /\
  exists c, Demo.clips 7 !! 0 = Some c /\
    Frame <$> csv_rows c = [1; 4; 6] /\
    StronglySorted (fun r1 r2 => Frame r1 <= Frame r2) (csv_rows c).
Proof.
  assert (Demo.run 7 = inr (Demo.clips 7)) as Hrun by (vm_compute; reflexivity).
  split; [exact Hrun|].
  assert (exists c, Demo.clips 7 !! 0 = Some c /\ Frame <$> csv_rows c = [1; 4; 6])
    as (c & Hc & Hrows) by (eexists; split; vm_compute; reflexivity).
  exists c. split; [exact Hc|]. split; [exact Hrows|].
  apply (split_rows_sorted_by_frame Demo.imread Demo.shape Demo.resize Demo.circle
           Demo.natsorted Demo.csv_write_ok Demo.raises Demo.input_listing Demo.out_folder
           (txt "output") Demo.csv 7 None (Demo.clips 7) Hrun c).
  apply list_elem_of_lookup. by exists 0.
Defined.

Lemma split_without_annotations_witness :
  exists clips c,
    split_images_to_videos Demo.imread Demo.shape Demo.resize Demo.circle
      Demo.natsorted Demo.csv_write_ok Demo.raises Demo.input_listing Demo.out_folder
      (txt "output") CsvMissing 3 None = inr clips /\
    clips !! 0 = Some c /\
    annotated_frames c = clean_frames c /\ csv_file c = CsvSkipped.
Proof.
  assert (exists clips c,
    split_images_to_videos Demo.imread Demo.shape Demo.resize Demo.circle
      Demo.natsorted Demo.csv_write_ok Demo.raises Demo.input_listing Demo.out_folder
      (txt "output") CsvMissing 3 None = inr clips /\ clips !! 0 = Some c)
    as (clips & c & Hrun & Hc) by (do 2 eexists; split; vm_compute; reflexivity).
  exists clips, c. split; [exact Hrun|]. split; [exact Hc|].
  destruct (split_without_annotations Demo.imread Demo.shape Demo.resize Demo.circle
              Demo.natsorted Demo.csv_write_ok Demo.raises Demo.input_listing Demo.out_folder
              (txt "output") CsvMissing 3 None clips (or_introl eq_refl) Hrun c)
    as (Hfr & _ & Hfile).
  - apply list_elem_of_lookup. by exists 0.
  - split; [exact Hfr | exact Hfile].
Defined.

Lemma split_chunks_cover_images_witness :
  Demo.run 3 = inr (Demo.clips 3) /\
  concat (video_images <$> Demo.clips 3)
  ≡ₚ List.filter is_image_name Demo.input_listing.
Proof.
  assert (Demo.run 3 = inr (Demo.clips 3)) as Hrun by (vm_compute; reflexivity).
  split; [exact Hrun|].
  apply (split_chunks_cover_images Demo.imread Demo.shape Demo.resize Demo.circle
           Demo.natsorted Demo.csv_write_ok Demo.raises Demo.input_listing Demo.out_folder
           (txt "output") Demo.csv 3 None (Demo.clips 3));
    [| reflexivity | reflexivity | exact Hrun].
  intros l. reflexivity.
Defined.

(** The script on the folder of seven images: one clip, sized after the
    first image. *)
Lemma main_aborts_iff_witness :
  exists clips,
    main Demo.imread Demo.shape Demo.resize Demo.circle Demo.natsorted Demo.csv_write_ok
      Demo.raises Demo.input_listing Demo.out_folder None = inr clips /\
    length clips = 1.
Proof.
  assert (exists clips,
    main Demo.imread Demo.shape Demo.resize Demo.circle Demo.natsorted Demo.csv_write_ok
      Demo.raises Demo.input_listing Demo.out_folder None = inr clips) as [clips Hrun]
    by (eexists; vm_compute; reflexivity).
  exists clips. split; [exact Hrun|].
  apply (proj2 (main_aborts_iff Demo.imread Demo.shape Demo.resize Demo.circle
                  Demo.natsorted Demo.csv_write_ok Demo.raises Demo.input_listing
                  Demo.out_folder None (fun call => eq_refl) eq_refl) clips Hrun).
Defined.

(** ** The number of chunks and the calls that raise, evaluated *)

Example ceil_of_quotient_underflow :
  ceil_of_quotient 7 (10 ^ 400) = Some 0%Z /\
  ceil_of_quotient 7 (7 * 2 ^ 1075) = Some 0%Z /\
  ceil_of_quotient 7 (7 * 2 ^ 1075 - 1) = Some 1%Z.
Proof. repeat split; vm_compute; reflexivity. Qed.

Example ceil_of_quotient_rounding :
  ceil_of_quotient (2 ^ 53 + 1) 1 = Some (2 ^ 53)%Z /\
  ceil_of_quotient (10 ^ 17 + 1) 10 = Some (10 ^ 16)%Z /\
  ceil_of_quotient 9007199254740993 2 = Some 4503599627370496%Z /\
  ceil_of_quotient (2 ^ 1024) 1 = None.
Proof. repeat split; vm_compute; reflexivity. Qed.

Example ceil_of_quotient_in_range :
  ceil_of_quotient 250 100 = Some 3%Z /\ ceil_of_quotient 200 100 = Some 2%Z /\
  ceil_of_quotient 7 3 = Some 3%Z /\ ceil_of_quotient 7 120 = Some 1%Z.
Proof. repeat split; vm_compute; reflexivity. Qed.

Example run_aborts_on_empty_frame_size :
  split_images_to_videos Demo.imread Demo.shape Demo.resize Demo.circle Demo.natsorted
    Demo.csv_write_ok Demo.cv_raises Demo.input_listing Demo.out_folder (txt "output")
    Demo.csv 3 (Some (0, 0)) = inl Cv2Error.
Proof. vm_compute. reflexivity. Qed.

Example circle_raises_on_far_marker frame :
  first_raise Demo.cv_raises (circle_calls Demo.circle frame [Demo.far_point])
  = Some Cv2Error.
Proof. reflexivity. Qed.

Example run_aborts_on_bare_prefix :
  split_images_to_videos Demo.imread Demo.shape Demo.resize Demo.circle Demo.natsorted
    Demo.csv_write_ok Demo.bare_prefix_raises Demo.input_listing None (txt "output")
    Demo.csv 3 None = inl OSError.
Proof. vm_compute. reflexivity. Qed.
